(** * PositionTracker: a shallow embedding of ICLBlob/src/PositionTracker.cpp

    The tracker is instantiated at [icl32s] only (the last lines of the
    source), so scalars are integers.  They are modelled in [Z], without the
    32-bit bound: signed overflow is undefined in the source and no
    statement below relies on it.  Vectors ([std::vector]) and the history
    deques ([std::deque]) are lists.  [operator[]] outside the bounds of a
    vector or a deque is undefined behaviour in the source: the model makes
    every such access an explicit failure, so that "the code returns" always
    means "every index it used was inside its container". *)

From stdpp Require Import base list numbers sorting gmap.

(** ** Failures and the monad that threads them *)

Inductive error :=
  | InvalidArgument        (* ICLASSERT_RETURN fired in pushData *)
  | PreconditionViolation  (* ICLASSERT fired *)
  | OutOfRange             (* operator[] outside a vector or deque *)
  | Diverged.              (* a while loop did not finish within its fuel *)

Inductive result (A : Type) :=
  | Ok (a : A)
  | Err (e : error).
Arguments Ok {A} a.
Arguments Err {A} e.

Global Instance result_ret : MRet result := λ A a, Ok a.
Global Instance result_bind : MBind result := λ A B f m,
  match m with Ok a => f a | Err e => Err e end.

(** Modelled from the spec: the macro ICLASSERT (iclMacros.h is not among the
    sources).  The spec treats a failed assertion as a precondition
    violation that makes the enclosing builder fail. *)
Definition ICLASSERT (c : Prop) `{Decision c} : result unit :=
  if decide c then Ok tt else Err PreconditionViolation.

(** ** Vectors, with checked [operator[]] *)

Abbreviation Vec := (list Z).
Abbreviation Mat := (list (list Z)).          (* deque<vector<valueType> > *)
Abbreviation SimpleMatrix := (list (list Z)). (* m[i] is the list of the m[i][j] *)

Definition vec_at {A} (v : list A) (i : nat) : result A :=
  match v !! i with Some x => Ok x | None => Err OutOfRange end.

Definition vec_at_int {A} (v : list A) (i : Z) : result A :=
  if decide (0 ≤ i)%Z then vec_at v (Z.to_nat i) else Err OutOfRange.

Definition vec_set {A} (v : list A) (i : nat) (x : A) : result (list A) :=
  if decide (i < length v) then Ok (<[i:=x]> v) else Err OutOfRange.

Definition vec_set_int {A} (v : list A) (i : Z) (x : A) : result (list A) :=
  if decide (0 ≤ i)%Z then vec_set v (Z.to_nat i) x else Err OutOfRange.

Definition pop_front {A} (d : list A) : result (list A) :=
  match d with [] => Err OutOfRange | _ :: d' => Ok d' end.

(** [for(int i=0;i<n;i++) s = body(i,s)] *)
Fixpoint for_each {St} (l : list nat) (body : nat → St → result St) (s : St)
  : result St :=
  match l with
  | [] => Ok s
  | i :: l' => s' ← body i s; for_each l' body s'
  end.

Definition for_range {St} (n : nat) (body : nat → St → result St) (s : St)
  : result St := for_each (seq 0 n) body s.

(** [for(...) out.push_back(f(i))] *)
Fixpoint collect {B} (f : nat → result B) (l : list nat) : result (list B) :=
  match l with
  | [] => Ok []
  | i :: l' => y ← f i; ys ← collect f l'; Ok (y :: ys)
  end.

(** ** Constants of namespace positiontracker *)

Definition BLIND_VALUE : Z := 9999.

(** ** Extrapolator *)

Module Extrapolator.
(** Modelled from the spec: Extrapolator.h is not among the sources.  The
    spec gives the two-sample predictor as linear extrapolation, the samples
    ordered oldest to newest. *)
Definition predict2 (a b : Z) : Z := (b + (b - a))%Z.

(** Modelled from the spec: the three-sample predictor of Extrapolator.h,
    the quadratic fit through equally spaced samples in its
    finite-difference form. *)
Definition predict3 (a b c : Z) : Z := (c + (c - b) + ((c - b) - (b - a)))%Z.
End Extrapolator.

(** ** removeElemsFromVector

    The first loop walks [v] and [rows] together; the second one copies what is
    left of [v] once [rows] is used up. *)
Fixpoint removeElems_loop {A} (v : list A) (vidx : Z) (rows : list Z) : list A :=
  match v with
  | [] => []
  | x :: v' =>
      match rows with
      | [] => x :: v'
      | r :: rows' =>
          if decide (r ≠ vidx) then x :: removeElems_loop v' (vidx + 1) rows
          else removeElems_loop v' (vidx + 1) rows'
      end
  end.

Definition removeElemsFromVector {A} (v : list A) (rows : list Z) : list A :=
  removeElems_loop v 0 rows.

(** removeRowsFromDataMatrix, for one axis [m[d]]: the three frames in turn. *)
Definition removeRows_axis (md : Mat) (rows : list Z) : result Mat :=
  for_range 3 (λ x md,
    v ← vec_at md x;
    vec_set md x (removeElemsFromVector v rows)) md.

Definition removeRowsFromDataMatrix (mX mY : Mat) (rows : list Z)
  : result (Mat * Mat) :=
  mX' ← removeRows_axis mX rows;
  mY' ← removeRows_axis mY rows;
  Ok (mX', mY').

(** ** createDistMat

    For integer scalars the entry is
    [(valueType)sqrt(pow(dx,2)+pow(dy,2))]: the square root is taken in
    double precision and the cast back to the integer type drops the
    fraction.  For coordinates whose squares are exact in double precision
    (pixel coordinates and the blind value are) that is the integer square
    root of the sum of squares. *)
Definition dist_entry (ax ay bx by_ : Z) : Z :=
  Z.sqrt ((ax - bx) ^ 2 + (ay - by_) ^ 2).

Definition createDistMat (aX aY bX bY : Vec) : result SimpleMatrix :=
  _ ← ICLASSERT (length aX = length bX);
  let dim := length aX in
  collect (λ i,
    collect (λ j,
      ax ← vec_at aX j; bx ← vec_at bX i;
      ay ← vec_at aY j; by_ ← vec_at bY i;
      Ok (dist_entry ax ay bx by_)) (seq 0 dim)) (seq 0 dim).

(** ** predict *)
Definition predict_slot (data : Mat) (good : list Z) (y : nat) : result Z :=
  g ← vec_at good y;
  if decide (g = 1%Z) then
    d2 ← vec_at data 2; vec_at d2 y
  else if decide (g = 2%Z) then
    d1 ← vec_at data 1; a ← vec_at d1 y;
    d2 ← vec_at data 2; b ← vec_at d2 y;
    Ok (Extrapolator.predict2 a b)
  else
    d0 ← vec_at data 0; a ← vec_at d0 y;
    d1 ← vec_at data 1; b ← vec_at d1 y;
    d2 ← vec_at data 2; c ← vec_at d2 y;
    Ok (Extrapolator.predict3 a b c).

Definition predict (dim : nat) (data : Mat) (good : list Z) : result Vec :=
  collect (predict_slot data good) (seq 0 dim).

(** ** get_n_new_ids *)

(** [while(lut.find(id) != lut.end()) id++;] *)
Fixpoint skip_used (fuel : nat) (lut : gset Z) (id : Z) : option Z :=
  match fuel with
  | 0 => None
  | S fuel' =>
      if decide (id ∈ lut) then skip_used fuel' lut (id + 1) else Some id
  end.

Fixpoint mint_loop (n : nat) (lut : gset Z) (id : Z) : result (list Z) :=
  match n with
  | 0 => Ok []
  | S n' =>
      match skip_used (S (size lut)) lut id with
      | None => Err Diverged
      | Some id' =>
          rest ← mint_loop n' ({[id']} ∪ lut) id';
          Ok (id' :: rest)
      end
  end.

Definition get_n_new_ids (currentIDS : list Z) (n : Z) : result (list Z) :=
  mint_loop (Z.to_nat n) (list_to_set currentIDS) 0.

(** ** push_and_rearrange_data *)
Definition push_and_rearrange_data (dim : nat) (dataX dataY : Mat)
    (assignment : list Z) (newX newY : Vec) : result (Mat * Mat) :=
  '(arrX, arrY) ← for_range dim (λ i '(arrX, arrY),
      a ← vec_at assignment i;
      x ← vec_at newX i;
      arrX' ← vec_set_int arrX a x;
      y ← vec_at newY i;
      arrY' ← vec_set_int arrY a y;
      Ok (arrX', arrY')) (replicate dim 0%Z, replicate dim 0%Z);
  dataX' ← pop_front (dataX ++ [arrX]);
  dataY' ← pop_front (dataY ++ [arrY]);
  Ok (dataX', dataY').

(** ** The tracker state (the data members of PositionTracker) *)

Record tracker := Tracker {
  m_matData_X : Mat;                     (* m_matData[X] *)
  m_matData_Y : Mat;                     (* m_matData[Y] *)
  m_vecIDs : list Z;
  m_vecCurrentAssignment : list Z;
  m_vecGoodDataCount : list Z
}.

(** A freshly constructed tracker: every container is empty. *)
Definition fresh : tracker := Tracker [] [] [] [] [].

(** What a call of pushData can end in. *)
Inductive outcome :=
  | Done (t' : tracker)                 (* the tick ran to its end *)
  | Returned (e : error) (t' : tracker) (* ICLASSERT_RETURN left the call *)
  | Aborted (e : error).                (* the tick left defined behaviour *)

Definition run (r : result tracker) : outcome :=
  match r with Ok t' => Done t' | Err e => Aborted e end.

(** Modelled from the spec: the macro ICLASSERT_RETURN (iclMacros.h is not
    among the sources).  When its condition fails the call returns at once;
    the spec reports that as InvalidArgument, with the tracker as it was
    when the macro was reached. *)
Definition ICLASSERT_RETURN (c : Prop) `{Decision c} (t : tracker)
    (rest : outcome) : outcome :=
  if decide c then rest else Returned InvalidArgument t.

(** ** getID *)
Fixpoint getID_loop (is_ : list nat) (rX rY : Vec) (ids : list Z) (x y : Z)
  : result Z :=
  match is_ with
  | [] => Ok (-1)%Z
  | i :: is' =>
      xi ← vec_at rX i;
      if decide (xi = x) then
        yi ← vec_at rY i;
        if decide (yi = y) then vec_at ids i
        else getID_loop is' rX rY ids x y
      else getID_loop is' rX rY ids x y
  end.

Definition getID (t : tracker) (x y : Z) : result Z :=
  rX ← vec_at (m_matData_X t) 2;
  rY ← vec_at (m_matData_Y t) 2;
  getID_loop (seq 0 (length rX)) rX rY (m_vecIDs t) x y.

(** ** push_data_intern_first_step *)
Definition push_data_intern_first_step (t : tracker) (newX newY : Vec)
  : result tracker :=
  let dataX := m_matData_X t ++ [newX; newX; newX] in
  let dataY := m_matData_Y t ++ [newY; newY; newY] in
  let ids := resize (length newX) 0%Z (m_vecIDs t) in
  '(ids, good) ← for_range (length newX) (λ i '(ids, good),
      ids' ← vec_set ids i (Z.of_nat i);
      Ok (ids', good ++ [1%Z])) (ids, m_vecGoodDataCount t);
  Ok (Tracker dataX dataY ids (m_vecCurrentAssignment t) good).

Section Solver.

(** HungarianAlgorithm<valueType>::apply: the assignment solver is an
    external collaborator (HungarianAlgorithm.h is not among the sources),
    taken here as a parameter.  [assignment[i]] is the slot matched to
    observation [i]. *)
Variable HungarianAlgorithm_apply : SimpleMatrix → list Z.

(** ** push_data_intern_diff_zero *)
Definition push_data_intern_diff_zero (dim : nat) (t : tracker)
    (newX newY : Vec) : result tracker :=
  let good := m_vecGoodDataCount t in
  predX ← predict dim (m_matData_X t) good;
  predY ← predict dim (m_matData_Y t) good;
  distMat ← createDistMat predX predY newX newY;
  let assignment := HungarianAlgorithm_apply distMat in
  '(dataX, dataY) ← push_and_rearrange_data dim (m_matData_X t)
                       (m_matData_Y t) assignment newX newY;
  Ok (Tracker dataX dataY (m_vecIDs t) assignment (Z.succ <$> good)).

(** ** push_data_intern_diff_gtz *)
Definition delRows_of (DIFF : Z) (dim : nat) (assignment : list Z)
  : result (list Z) :=
  rows ← collect (λ i,
      vec_at_int assignment (Z.of_nat dim - 1 - Z.of_nat i)%Z)
    (seq 0 (Z.to_nat DIFF));
  Ok (merge_sort Z.le rows).

Definition push_data_intern_diff_gtz (DIFF : Z) (t : tracker)
    (newX newY : Vec) : result tracker :=
  let newX := newX ++ replicate (Z.to_nat DIFF) BLIND_VALUE in
  let newY := newY ++ replicate (Z.to_nat DIFF) BLIND_VALUE in
  let good := m_vecGoodDataCount t in
  d0 ← vec_at (m_matData_X t) 0;
  let dim := length d0 in
  predX ← predict dim (m_matData_X t) good;
  predY ← predict dim (m_matData_Y t) good;
  distMat ← createDistMat predX predY newX newY;
  let assignment := HungarianAlgorithm_apply distMat in
  '(dataX, dataY) ← push_and_rearrange_data dim (m_matData_X t)
                       (m_matData_Y t) assignment newX newY;
  delRows ← delRows_of DIFF dim assignment;
  '(dataX, dataY) ← removeRowsFromDataMatrix dataX dataY delRows;
  let ids := removeElemsFromVector (m_vecIDs t) delRows in
  let good := removeElemsFromVector good delRows in
  Ok (Tracker dataX dataY ids assignment (Z.succ <$> good)).

(** ** push_data_intern_diff_ltz, in the order of the source *)

(** Lines 285-290: every frame of both axes gets DIFF blind entries. *)
Definition pad_frames (d : Mat * Mat) : result (Mat * Mat) :=
  for_range 3 (λ i '(dX, dY),
    fx ← vec_at dX i;
    dX' ← vec_set dX i (fx ++ [BLIND_VALUE]);
    fy ← vec_at dY i;
    dY' ← vec_set dY i (fy ++ [BLIND_VALUE]);
    Ok (dX', dY')) d.

Definition pad_history (k : nat) (dataX dataY : Mat) : result (Mat * Mat) :=
  for_range k (λ _ d, pad_frames d) (dataX, dataY).

(** Lines 307-313: the observations matched into the padded region. *)
Definition newDataColsValues (dim : nat) (DIFF : Z) (assignment : list Z)
    (newX newY : Vec) : result (Vec * Vec) :=
  for_range dim (λ x '(cX, cY),
    a ← vec_at assignment x;
    if decide (Z.of_nat dim - DIFF ≤ a)%Z then
      vx ← vec_at_int newX a;
      vy ← vec_at_int newY a;
      Ok (cX ++ [vx], cY ++ [vy])
    else Ok (cX, cY)) ([], []).

(** Line 314: the condition guarding the printf of the WARNING. *)
Definition size_mismatch_warning (cX : Vec) (DIFF : Z) : bool :=
  bool_decide (Z.of_nat (length cX) ≠ DIFF).

(** Lines 320-327: backfill of the new slots, their ids and counters. *)
Definition backfill (dim : nat) (DIFF : Z) (cX cY : Vec) (newIDS : list Z)
    (dataX dataY : Mat) (ids good : list Z)
  : result (Mat * Mat * list Z * list Z) :=
  for_range (Z.to_nat DIFF) (λ i '(dX, dY, ids, good),
    '(dX, dY) ← for_range 3 (λ j '(dX, dY),
        fx ← vec_at dX j;
        vx ← vec_at cX i;
        fx' ← vec_set_int fx (Z.of_nat dim - DIFF + Z.of_nat i)%Z vx;
        dX' ← vec_set dX j fx';
        fy ← vec_at dY j;
        vy ← vec_at cY i;
        fy' ← vec_set_int fy (Z.of_nat dim - DIFF + Z.of_nat i)%Z vy;
        dY' ← vec_set dY j fy';
        Ok (dX', dY')) (dX, dY);
    id ← vec_at newIDS i;
    Ok (dX, dY, ids ++ [id], good ++ [0%Z])) (dataX, dataY, ids, good).

(** The second component tells whether the WARNING was printed. *)
Definition push_data_intern_diff_ltz (DIFF : Z) (t : tracker)
    (newX newY : Vec) : result (tracker * bool) :=
  let DIFF := (DIFF * -1)%Z in
  '(dataX, dataY) ← pad_history (Z.to_nat DIFF) (m_matData_X t) (m_matData_Y t);
  d0 ← vec_at dataX 0;
  let dim := length d0 in
  let good := m_vecGoodDataCount t ++ replicate (Z.to_nat DIFF) 1%Z in
  predX ← predict dim dataX good;
  predY ← predict dim dataY good;
  let good := take (length good - Z.to_nat DIFF) good in
  distMat ← createDistMat predX predY newX newY;
  let assignment := HungarianAlgorithm_apply distMat in
  '(cX, cY) ← newDataColsValues dim DIFF assignment newX newY;
  let warned := size_mismatch_warning cX DIFF in
  newIDS ← get_n_new_ids (m_vecIDs t) DIFF;
  '(dataX, dataY, ids, good) ←
    backfill dim DIFF cX cY newIDS dataX dataY (m_vecIDs t) good;
  let good := Z.succ <$> good in
  '(dataX, dataY) ← push_and_rearrange_data dim dataX dataY assignment newX newY;
  Ok (Tracker dataX dataY ids assignment good, warned).

(** ** pushData *)
Definition pushData (t : tracker) (dataXs dataYs : Vec) : outcome :=
  ICLASSERT_RETURN (0 < length dataXs) t (
  ICLASSERT_RETURN (length dataXs = length dataYs) t (
    if decide (length (m_matData_X t) = 0) then
      run (push_data_intern_first_step t dataXs dataYs)
    else
      run (d0 ← vec_at (m_matData_X t) 0;
           let DATA_MATRIX_HEIGHT := Z.of_nat (length d0) in
           let NEW_DATA_DIMENSION := Z.of_nat (length dataXs) in
           let DIFF := (DATA_MATRIX_HEIGHT - NEW_DATA_DIMENSION)%Z in
           if decide (DIFF < 0)%Z then
             '(t', _) ← push_data_intern_diff_ltz DIFF t dataXs dataYs; Ok t'
           else if decide (0 < DIFF)%Z then
             push_data_intern_diff_gtz DIFF t dataXs dataYs
           else
             push_data_intern_diff_zero (length d0) t dataXs dataYs))).

End Solver.

(** ** Vocabulary of the specification *)

(** The four parallel arrays have [N] slots and both deques hold 3 frames. *)
Definition frames (d : Mat) (N : nat) : Prop :=
  length d = 3 ∧ Forall (λ f, length f = N) d.

Definition shape (t : tracker) (N : nat) : Prop :=
  frames (m_matData_X t) N ∧ frames (m_matData_Y t) N ∧
  length (m_vecIDs t) = N ∧ length (m_vecGoodDataCount t) = N.

(** State Tracking with [N] slots; state Uninitialized is [fresh]. *)
Definition tracking (t : tracker) (N : nat) : Prop := 0 < N ∧ shape t N.

(** A solved assignment over [dim] rows: a permutation of 0..dim-1. *)
Definition is_assignment (dim : nat) (assignment : list Z) : Prop :=
  assignment ≡ₚ Z.of_nat <$> seq 0 dim.

(** Modelled from the spec: what HungarianAlgorithm<valueType>::apply
    (HungarianAlgorithm.h is not among the sources) owes its caller, a
    perfect matching of the rows of the square cost matrix. *)
Definition solver_contract (solve : SimpleMatrix → list Z) : Prop :=
  ∀ m, is_assignment (length m) (solve m).

(** Deleting the rows named by an ascending index list: the highest index
    goes first, so that every index still names its original row. *)
Definition delete_rows {A} (rows : list Z) (v : list A) : list A :=
  foldr (λ r l, delete (Z.to_nat r) l) v rows.

(** [x] is the smallest non-negative integer that is not in [used]. *)
Definition least_unused (used : list Z) (x : Z) : Prop :=
  (0 ≤ x)%Z ∧ (x ∉ used) ∧ ∀ z, (0 ≤ z < x)%Z → z ∈ used.



(** Entry [m[i][j]] of a matrix. *)
Definition entry (m : SimpleMatrix) (i j : nat) : option Z :=
  (m !! i) ≫= (.!! j).

(** Two solvers that honour the contract without looking at the costs; they
    serve to run the tracker on concrete inputs. *)
Definition identity_solver (m : SimpleMatrix) : list Z :=
  Z.of_nat <$> seq 0 (length m).
Definition reversing_solver (m : SimpleMatrix) : list Z :=
  reverse (Z.of_nat <$> seq 0 (length m)).

(** Two states that pushData reaches from [fresh], used to run the ticks. *)
Definition two_slots : tracker :=
  Tracker [[0; 10]; [0; 10]; [1; 11]]%Z [[0; 10]; [0; 10]; [1; 11]]%Z
    [0; 1]%Z [1; 0]%Z [2; 2]%Z.

Definition four_slots : tracker :=
  Tracker [[0; 10; 40; 30]; [1; 11; 40; 30]; [40; 30; 2; 12]]%Z
    [[0; 10; 40; 30]; [1; 11; 40; 30]; [40; 30; 2; 12]]%Z
    [0; 1; 2; 3]%Z [3; 2; 1; 0]%Z [3; 3; 1; 1]%Z.

(** The padded history of [two_slots] when two points appear. *)
Definition two_slots_padded : list (list Z) :=
  [[0; 10; 9999; 9999]; [0; 10; 9999; 9999]; [1; 11; 9999; 9999]]%Z.

(** ** pushData from an interleaved array

    The overload [pushData(valueType *xys, int n)].  [xys] stands for the
    array behind the pointer, so that reading past its end is an access
    outside the container; [n] is the number of points (with a negative [n]
    the vector constructor throws, which is left out of the model). *)
Definition deinterleave (xys : list Z) (n : nat) : result (list Z * list Z) :=
  for_range n (λ i '(x, y),
    a ← vec_at xys (2 * i);
    x' ← vec_set x i a;
    b ← vec_at xys (2 * i + 1);
    y' ← vec_set y i b;
    Ok (x', y')) (replicate n 0%Z, replicate n 0%Z).

Definition pushData_xys (solve : SimpleMatrix → list Z) (t : tracker)
    (xys : list Z) (n : nat) : outcome :=
  match deinterleave xys n with
  | Ok (x, y) => pushData solve t x y
  | Err e => Aborted e
  end.

(** The array x0, y0, x1, y1, ... of the points (xs[i], ys[i]). *)
Definition interleave (xs ys : list Z) : list Z :=
  flat_map (λ p : Z * Z, [p.1; p.2]) (zip xs ys).

(** ** More vocabulary *)

(** A tracking tracker whose identities are pairwise distinct and
    non-negative and whose freshness counters are all at least 1. *)
Definition healthy (t : tracker) (N : nat) : Prop :=
  tracking t N ∧ NoDup (m_vecIDs t) ∧
  Forall (λ id, 0 ≤ id)%Z (m_vecIDs t) ∧
  Forall (λ g, 1 ≤ g)%Z (m_vecGoodDataCount t).

(** A batch pushData accepts. *)
Definition valid_batch (b : list Z * list Z) : Prop :=
  0 < length b.1 ∧ length b.1 = length b.2.

(** One pushData per batch, in order, stopping at the first call that does
    not run to its end. *)
Fixpoint pushAll (solve : SimpleMatrix → list Z) (t : tracker)
    (batches : list (list Z * list Z)) : outcome :=
  match batches with
  | [] => Done t
  | b :: rest =>
      match pushData solve t b.1 b.2 with
      | Done t' => pushAll solve t' rest
      | o => o
      end
  end.

(** The points of the newest history frame, slot by slot. *)
Definition newest_points (t : tracker) : list (Z * Z) :=
  zip (default [] (m_matData_X t !! 2)) (default [] (m_matData_Y t !! 2)).

(** The point that slot [a] of a frame pair holds. *)
Definition slot_point (aX aY : list Z) (a : Z) : Z * Z :=
  (aX !!! Z.to_nat a, aY !!! Z.to_nat a).

(** * Proofs *)

(** ** The monad and the loops *)

Lemma bind_Ok_inv {A B} (m : result A) (f : A → result B) b :
  (m ≫= f) = Ok b → ∃ a, m = Ok a ∧ f a = Ok b.
Proof. destruct m as [a|e]; [by exists a | done]. Qed.

Lemma vec_at_Ok {A} (v : list A) i x : v !! i = Some x → vec_at v i = Ok x.
Proof. unfold vec_at. by intros ->. Qed.

Lemma vec_at_lt {A} (v : list A) i :
  i < length v → ∃ x, v !! i = Some x ∧ vec_at v i = Ok x.
Proof.
  intros Hi. destruct (lookup_lt_is_Some_2 v i Hi) as [x Hx].
  exists x. split; [done | by apply vec_at_Ok].
Qed.

Lemma vec_at_Ok_inv {A} (v : list A) i x : vec_at v i = Ok x → v !! i = Some x.
Proof. unfold vec_at. destruct (v !! i); naive_solver. Qed.

Lemma vec_at_int_Ok {A} (v : list A) (i : nat) x :
  v !! i = Some x → vec_at_int v (Z.of_nat i) = Ok x.
Proof.
  intros Hx. unfold vec_at_int. rewrite decide_True by lia.
  rewrite Nat2Z.id. by apply vec_at_Ok.
Qed.

Lemma vec_set_Ok {A} (v : list A) i x :
  i < length v → vec_set v i x = Ok (<[i:=x]> v).
Proof. intros Hi. unfold vec_set. by rewrite decide_True. Qed.

Lemma vec_set_int_Ok {A} (v : list A) (i : nat) x :
  i < length v → vec_set_int v (Z.of_nat i) x = Ok (<[i:=x]> v).
Proof.
  intros Hi. unfold vec_set_int. rewrite decide_True by lia.
  rewrite Nat2Z.id. by apply vec_set_Ok.
Qed.

Lemma for_each_inv {St} (I : nat → St → Prop) (body : nat → St → result St) n :
  ∀ a s,
    I a s →
    (∀ i s, a ≤ i < a + n → I i s → ∃ s', body i s = Ok s' ∧ I (S i) s') →
    ∃ s', for_each (seq a n) body s = Ok s' ∧ I (a + n) s'.
Proof.
  induction n as [|n IH]; intros a s Ha Hstep; simpl.
  - exists s. by rewrite Nat.add_0_r.
  - destruct (Hstep a s) as (s1 & -> & H1); [lia | done |]. simpl.
    destruct (IH (S a) s1) as (s2 & Hs2 & H2); [done | |].
    + intros i s0 Hi. apply Hstep. lia.
    + exists s2. split; [done |]. by replace (a + S n) with (S a + n) by lia.
Qed.

Lemma for_range_inv {St} (I : nat → St → Prop) (body : nat → St → result St) n s :
  I 0 s →
  (∀ i s, i < n → I i s → ∃ s', body i s = Ok s' ∧ I (S i) s') →
  ∃ s', for_range n body s = Ok s' ∧ I n s'.
Proof.
  intros H0 Hstep. apply (for_each_inv I body n 0 s H0).
  intros i s0 Hi. apply Hstep. lia.
Qed.

Lemma collect_Ok_inv {B} (f : nat → result B) l ys :
  collect f l = Ok ys → Forall2 (λ i y, f i = Ok y) l ys.
Proof.
  revert ys. induction l as [|i l IH]; intros ys; simpl.
  - intros [= <-]. constructor.
  - intros H. apply bind_Ok_inv in H as (y & Hy & H).
    apply bind_Ok_inv in H as (ys' & Hys & [= <-]).
    constructor; [done | by apply IH].
Qed.

Lemma collect_total {B} (f : nat → result B) l :
  (∀ i, i ∈ l → ∃ y, f i = Ok y) →
  ∃ ys, collect f l = Ok ys ∧ Forall2 (λ i y, f i = Ok y) l ys.
Proof.
  induction l as [|i l IH]; intros Hf; simpl.
  - exists []. split; [done | constructor].
  - destruct (Hf i) as [y Hy]; [left |].
    destruct IH as (ys & Hys & HF); [intros j Hj; apply Hf; by right |].
    exists (y :: ys). rewrite Hy. simpl. rewrite Hys. simpl.
    split; [done | by constructor].
Qed.

Lemma collect_range {B} (f : nat → result B) n ys :
  collect f (seq 0 n) = Ok ys →
  length ys = n ∧ ∀ i, i < n → ∃ y, ys !! i = Some y ∧ f i = Ok y.
Proof.
  intros H%collect_Ok_inv. split.
  - apply Forall2_length in H. by rewrite length_seq in H.
  - intros i Hi.
    destruct (Forall2_lookup_l _ _ _ i i H) as (y & Hy & Hfy);
      [by apply lookup_seq_lt | by exists y].
Qed.

(** ** predict *)

Lemma frames_lookup d N :
  frames d N → ∃ f0 f1 f2, d = [f0; f1; f2] ∧
    length f0 = N ∧ length f1 = N ∧ length f2 = N.
Proof.
  intros [Hl HF]. destruct d as [|f0 [|f1 [|f2 [|]]]]; try done.
  exists f0, f1, f2. repeat split.
  all: repeat (apply Forall_cons in HF as [? HF]); done.
Qed.

Lemma frames_intro f0 f1 f2 N :
  length f0 = N → length f1 = N → length f2 = N → frames [f0; f1; f2] N.
Proof. intros. split; [done | by repeat constructor]. Qed.

Lemma predict_slot_total d N good y :
  frames d N → y < N → y < length good → ∃ p, predict_slot d good y = Ok p.
Proof.
  intros (f0 & f1 & f2 & -> & H0 & H1 & H2)%frames_lookup Hy Hg.
  destruct (vec_at_lt good y Hg) as (g & _ & Eg).
  destruct (vec_at_lt f0 y) as (a & _ & Ea); [lia |].
  destruct (vec_at_lt f1 y) as (b & _ & Eb); [lia |].
  destruct (vec_at_lt f2 y) as (c & _ & Ec); [lia |].
  unfold predict_slot. rewrite Eg. simpl.
  repeat case_decide; simpl; rewrite ?Ea, ?Eb, ?Ec; simpl; eauto.
Qed.

Lemma predict_total d N good dim :
  frames d N → dim ≤ N → dim ≤ length good →
  ∃ p, predict dim d good = Ok p ∧ length p = dim.
Proof.
  intros Hd HN Hg. unfold predict.
  destruct (collect_total (predict_slot d good) (seq 0 dim)) as (p & Hp & _).
  - intros i [_ Hi]%elem_of_seq. apply (predict_slot_total d N); [done | lia..].
  - exists p. split; [done |]. by apply collect_range in Hp as [? _].
Qed.

(** ** createDistMat *)


Lemma createDistMat_total aX aY bX bY :
  length aY = length aX → length bY = length bX → length aX = length bX →
  ∃ m, createDistMat aX aY bX bY = Ok m ∧ length m = length aX ∧
    Forall (λ r, length r = length aX) m ∧
    ∀ i j ax ay bx by_,
      aX !! j = Some ax → aY !! j = Some ay →
      bX !! i = Some bx → bY !! i = Some by_ →
      entry m i j = Some (dist_entry ax ay bx by_).
Proof.
  intros HaY HbY Hab. unfold createDistMat, ICLASSERT.
  rewrite decide_True by done. simpl.
  set (row := λ i : nat, collect _ (seq 0 (length aX))).
  destruct (collect_total row (seq 0 (length aX))) as (m & Hm & _).
  { intros i [_ Hi]%elem_of_seq. simpl in Hi. unfold row.
    destruct (collect_total (λ j : nat,
      ax ← vec_at aX j; bx ← vec_at bX i;
      ay ← vec_at aY j; by_ ← vec_at bY i;
      Ok (dist_entry ax ay bx by_)) (seq 0 (length aX))) as (r & Hr & _);
      [| by exists r].
    intros j [_ Hj]%elem_of_seq. simpl in Hj.
    destruct (vec_at_lt aX j) as (ax & _ & ->); [lia |].
    destruct (vec_at_lt bX i) as (bx & _ & ->); [lia |].
    destruct (vec_at_lt aY j) as (ay & _ & ->); [lia |].
    destruct (vec_at_lt bY i) as (by_ & _ & ->); [lia |].
    simpl. eauto. }
  exists m. split; [done |].
  apply collect_range in Hm as [Hlen Hrows]. split; [done |]. split.
  - apply Forall_lookup. intros i r Hr.
    destruct (Hrows i) as (r' & Hr' & Hrow).
    { rewrite <- Hlen. by eapply lookup_lt_Some. }
    rewrite Hr in Hr'. injection Hr' as <-.
    by apply collect_range in Hrow as [? _].
  - intros i j ax ay bx by_ Hax Hay Hbx Hby.
    destruct (Hrows i) as (r & Hr & Hrow).
    { rewrite Hab. by eapply lookup_lt_Some. }
    apply collect_range in Hrow as [_ Hcols].
    destruct (Hcols j) as (d & Hd & Hval); [by eapply lookup_lt_Some |].
    unfold entry. rewrite Hr. simpl. rewrite Hd.
    rewrite (vec_at_Ok _ _ _ Hax), (vec_at_Ok _ _ _ Hbx),
      (vec_at_Ok _ _ _ Hay), (vec_at_Ok _ _ _ Hby) in Hval.
    simpl in Hval. by injection Hval as <-.
Qed.

(** ** Assignments *)

Lemma assignment_length dim asg : is_assignment dim asg → length asg = dim.
Proof.
  intros H. rewrite (Permutation_length H). by rewrite length_fmap, length_seq.
Qed.

Lemma assignment_elem dim asg a :
  is_assignment dim asg → a ∈ asg → ∃ n, a = Z.of_nat n ∧ n < dim.
Proof.
  intros H Ha. rewrite H in Ha.
  apply list_elem_of_fmap in Ha as (n & -> & [_ Hn]%elem_of_seq).
  exists n. split; [done | lia].
Qed.

Lemma assignment_lookup dim asg i a :
  is_assignment dim asg → asg !! i = Some a → ∃ n, a = Z.of_nat n ∧ n < dim.
Proof.
  intros H Ha. apply (assignment_elem dim asg a H).
  by apply list_elem_of_lookup_2 in Ha.
Qed.

Lemma assignment_NoDup dim asg : is_assignment dim asg → NoDup asg.
Proof.
  intros H. rewrite H. apply NoDup_fmap_2; [apply _ | apply NoDup_seq].
Qed.

(** ** push_and_rearrange_data *)

Lemma pop_front_snoc {A} (d : list A) a :
  pop_front (d ++ [a]) = Ok (tail (d ++ [a])).
Proof. by destruct d. Qed.

Lemma push_and_rearrange_data_spec dim dX dY asg newX newY :
  is_assignment dim asg → dim ≤ length newX → dim ≤ length newY →
  ∃ aX aY,
    push_and_rearrange_data dim dX dY asg newX newY
      = Ok (tail (dX ++ [aX]), tail (dY ++ [aY])) ∧
    length aX = dim ∧ length aY = dim ∧
    ∀ i a, asg !! i = Some a →
      aX !! Z.to_nat a = newX !! i ∧ aY !! Z.to_nat a = newY !! i.
Proof.
  intros Hasg HX HY. unfold push_and_rearrange_data.
  pose proof (assignment_length _ _ Hasg) as Hlen.
  pose proof (assignment_NoDup _ _ Hasg) as Hnd.
  set (I := λ (m : nat) (s : list Z * list Z),
    length s.1 = dim ∧ length s.2 = dim ∧
    ∀ i a, i < m → asg !! i = Some a →
      s.1 !! Z.to_nat a = newX !! i ∧ s.2 !! Z.to_nat a = newY !! i).
  match goal with |- context [for_range ?n ?b ?s] =>
    destruct (for_range_inv I b n s) as ([aX aY] & -> & HaX & HaY & Hval) end.
  - split_and!; simpl; [by rewrite length_replicate.. | lia].
  - intros i [aX aY] Hi (HaX & HaY & Hval). simpl in *.
    destruct (vec_at_lt asg i) as (a & Ha & ->); [lia |].
    destruct (vec_at_lt newX i) as (x & Hx & ->); [lia |].
    destruct (vec_at_lt newY i) as (y & Hy & ->); [lia |].
    destruct (assignment_lookup _ _ _ _ Hasg Ha) as (n & -> & Hn). simpl.
    rewrite vec_set_int_Ok by lia. simpl.
    rewrite vec_set_int_Ok by lia. simpl.
    eexists. split; [done |]. unfold I. simpl.
    rewrite !length_insert. split_and!; [done.. |].
    intros i' a' Hi' Ha'.
    destruct (decide (i' = i)) as [-> | Hne].
    + rewrite Ha in Ha'. injection Ha' as <-. rewrite Nat2Z.id.
      rewrite !list_lookup_insert_eq by lia. by rewrite Hx, Hy.
    + assert (a' ≠ Z.of_nat n) as Hna.
      { intros ->. apply Hne. by eapply NoDup_lookup. }
      destruct (assignment_lookup _ _ _ _ Hasg Ha') as (n' & -> & Hn').
      assert (n ≠ n') as Hnn by (intros ->; done).
      rewrite Nat2Z.id.
      rewrite !list_lookup_insert_ne by done.
      specialize (Hval i' (Z.of_nat n')). rewrite Nat2Z.id in Hval.
      apply Hval; [lia | done].
  - simpl in *. rewrite !pop_front_snoc. simpl.
    exists aX, aY. split_and!; [done.. |].
    intros i a Ha. apply Hval; [| done].
    rewrite <- Hlen. by eapply lookup_lt_Some.
Qed.

(** ** removeElemsFromVector deletes the named rows *)

Lemma delete_rows_nil {A} rows : delete_rows rows (@nil A) = [].
Proof. induction rows as [|r rows IH]; simpl; [done | by rewrite IH]. Qed.

Lemma delete_rows_cons_shift {A} rows (x : A) v :
  Forall (λ r, 0 < r)%Z rows →
  delete_rows rows (x :: v) = x :: delete_rows ((λ r, r - 1)%Z <$> rows) v.
Proof.
  induction 1 as [|r rows Hr _ IH]; simpl in *; [done |].
  rewrite IH. replace (Z.to_nat r) with (S (Z.to_nat (r - 1))) by lia. done.
Qed.

Lemma removeElems_loop_spec {A} (v : list A) :
  ∀ vidx rows,
    StronglySorted Z.lt rows → Forall (λ r, vidx ≤ r)%Z rows →
    removeElems_loop v vidx rows
      = delete_rows ((λ r, r - vidx)%Z <$> rows) v.
Proof.
  induction v as [|x v IH]; intros vidx rows Hs Hge; simpl.
  - by rewrite delete_rows_nil.
  - destruct rows as [|r rows]; [done |].
    apply StronglySorted_inv in Hs as [Hs Hlt].
    apply Forall_cons in Hge as [Hr Hge].
    assert (∀ l : list Z, (λ r0, r0 - (vidx + 1))%Z <$> l
              = (λ r0, r0 - 1)%Z <$> ((λ r0, r0 - vidx)%Z <$> l)) as Hsh.
    { intros l. rewrite <- list_fmap_compose. apply list_fmap_ext.
      intros _ r0 _. simpl. lia. }
    case_decide as Hne.
    + rewrite IH.
      * rewrite Hsh, <- delete_rows_cons_shift; [done |].
        apply Forall_fmap, Forall_cons. simpl in *.
        split; [unfold compose; lia |].
        eapply Forall_impl; [exact Hlt |]. unfold compose. simpl. lia.
      * by apply SSorted_cons.
      * apply Forall_cons. split; [lia |].
        eapply Forall_impl; [exact Hlt |]. simpl. lia.
    + assert (r = vidx) as -> by (destruct (decide (r = vidx)); [done | tauto]).
      rewrite IH; [| done |].
      * simpl. rewrite Z.sub_diag. simpl.
        rewrite delete_rows_cons_shift.
        -- simpl. by rewrite Hsh.
        -- apply Forall_fmap. eapply Forall_impl; [exact Hlt |].
           unfold compose. simpl. lia.
      * eapply Forall_impl; [exact Hlt |]. simpl. lia.
Qed.

Lemma removeElemsFromVector_spec {A} (v : list A) rows :
  StronglySorted Z.lt rows → Forall (λ r, 0 ≤ r)%Z rows →
  removeElemsFromVector v rows = delete_rows rows v.
Proof.
  intros Hs Hge. unfold removeElemsFromVector.
  rewrite removeElems_loop_spec by done. f_equal.
  rewrite <- (list_fmap_id rows) at 2. apply list_fmap_ext.
  intros _ r _. simpl. lia.
Qed.

Lemma ascending_bound rows :
  ∀ (r : Z) (n : nat),
    StronglySorted Z.lt (r :: rows) →
    Forall (λ r, 0 ≤ r < Z.of_nat n)%Z (r :: rows) →
    Z.to_nat r + length rows < n.
Proof.
  induction rows as [|r' rows IH]; intros r n Hs Hb.
  - apply Forall_cons in Hb as [Hr _]. simpl. lia.
  - apply StronglySorted_inv in Hs as [Hs Hlt].
    apply Forall_cons in Hlt as [Hrr _].
    apply Forall_cons in Hb as [Hr Hb].
    specialize (IH r' n Hs Hb). simpl. apply Forall_cons in Hb as [Hr' _]. lia.
Qed.

Lemma delete_rows_length {A} (v : list A) rows :
  StronglySorted Z.lt rows →
  Forall (λ r, 0 ≤ r < Z.of_nat (length v))%Z rows →
  length (delete_rows rows v) = length v - length rows.
Proof.
  induction rows as [|r rows IH]; intros Hs Hb; simpl; [lia |].
  pose proof (ascending_bound rows r (length v) Hs Hb) as Hlt.
  apply StronglySorted_inv in Hs as [Hs _].
  apply Forall_cons in Hb as [_ Hb].
  specialize (IH Hs Hb). fold (delete_rows rows v).
  rewrite length_delete; [lia |]. apply lookup_lt_is_Some. lia.
Qed.

Lemma delete_rows_sublist {A} (v : list A) rows :
  delete_rows rows v `sublist_of` v.
Proof.
  induction rows as [|r rows IH]; simpl; [done |].
  etrans; [apply sublist_delete | exact IH].
Qed.

(** removeRowsFromDataMatrix treats the three frames alike. *)
Lemma removeRows_axis_spec d N rows :
  frames d N →
  removeRows_axis d rows = Ok ((λ v, removeElemsFromVector v rows) <$> d).
Proof.
  intros (f0 & f1 & f2 & -> & _)%frames_lookup.
  unfold removeRows_axis, for_range, vec_set. simpl.
  repeat (rewrite decide_True by lia; simpl). done.
Qed.

(** ** The rows that a shrinking tick deletes *)

Lemma sorted_le_NoDup_lt (l : list Z) :
  StronglySorted Z.le l → NoDup l → StronglySorted Z.lt l.
Proof.
  induction 1 as [|x l Hs IH Hle]; intros Hnd; [constructor |].
  apply NoDup_cons in Hnd as [Hx Hnd]. constructor; [by apply IH |].
  apply Forall_forall. intros y Hy.
  pose proof (proj1 (Forall_forall _ _) Hle y Hy) as Hxy.
  assert (x ≠ y) by (intros ->; done). lia.
Qed.

Lemma delRows_of_spec dim asg (k : nat) :
  is_assignment dim asg → k ≤ dim →
  ∃ rows, delRows_of (Z.of_nat k) dim asg = Ok rows ∧
    rows ≡ₚ drop (dim - k) asg ∧ StronglySorted Z.lt rows ∧
    length rows = k ∧ Forall (λ r, 0 ≤ r < Z.of_nat dim)%Z rows.
Proof.
  intros Hasg Hk. unfold delRows_of. rewrite Nat2Z.id.
  pose proof (assignment_length _ _ Hasg) as Hlen.
  set (f := λ i : nat, vec_at_int asg (Z.of_nat dim - 1 - Z.of_nat i)%Z).
  destruct (collect_total f (seq 0 k)) as (raw & Hraw & _).
  { intros i [_ Hi]%elem_of_seq. simpl in Hi. unfold f.
    replace (Z.of_nat dim - 1 - Z.of_nat i)%Z with (Z.of_nat (dim - 1 - i)) by lia.
    destruct (lookup_lt_is_Some_2 asg (dim - 1 - i)) as [a Ha]; [lia |].
    exists a. by apply vec_at_int_Ok. }
  rewrite Hraw. simpl. eexists. split; [done |].
  apply collect_range in Hraw as [Hrl Hrv].
  assert (raw = reverse (drop (dim - k) asg)) as ->.
  { apply list_eq. intros i. destruct (decide (i < k)) as [Hi | Hi].
    - destruct (Hrv i Hi) as (a & -> & Ha). unfold f in Ha.
      replace (Z.of_nat dim - 1 - Z.of_nat i)%Z
        with (Z.of_nat (dim - 1 - i)) in Ha by lia.
      unfold vec_at_int in Ha. rewrite decide_True in Ha by lia.
      rewrite Nat2Z.id in Ha. apply vec_at_Ok_inv in Ha.
      rewrite reverse_lookup by (rewrite length_drop; lia).
      rewrite lookup_drop, length_drop, <- Ha. f_equal. lia.
    - rewrite !lookup_ge_None_2; [done | |].
      + rewrite length_reverse, length_drop. lia.
      + lia. }
  assert (merge_sort Z.le (reverse (drop (dim - k) asg)) ≡ₚ drop (dim - k) asg)
    as Hperm by (by rewrite merge_sort_Permutation, reverse_Permutation).
  split; [done |]. split.
  { apply sorted_le_NoDup_lt; [apply (StronglySorted_merge_sort _) |].
    rewrite Hperm. apply (sublist_NoDup _ asg); [| apply sublist_drop].
    by eapply assignment_NoDup. }
  split.
  { rewrite (Permutation_length Hperm), length_drop. lia. }
  rewrite Hperm. apply Forall_drop, Forall_forall. intros a Ha.
  destruct (assignment_elem _ _ _ Hasg Ha) as (n & -> & Hn). lia.
Qed.

(** ** The growth path, piece by piece *)

Lemma pad_frames_spec dX dY :
  length dX = 3 → length dY = 3 →
  pad_frames (dX, dY)
    = Ok ((λ f, f ++ [BLIND_VALUE]) <$> dX, (λ f, f ++ [BLIND_VALUE]) <$> dY).
Proof.
  intros HX HY.
  destruct dX as [|x0 [|x1 [|x2 [|]]]]; try done.
  destruct dY as [|y0 [|y1 [|y2 [|]]]]; done.
Qed.

Lemma pad_history_loop k :
  ∀ a dX dY, length dX = 3 → length dY = 3 →
    for_each (seq a k) (λ _ d, pad_frames d) (dX, dY)
      = Ok ((λ f, f ++ replicate k BLIND_VALUE) <$> dX,
            (λ f, f ++ replicate k BLIND_VALUE) <$> dY).
Proof.
  induction k as [|k IH]; intros a dX dY HX HY.
  - simpl. f_equal. f_equal.
    all: symmetry; etrans; [| apply list_fmap_id].
    all: apply list_fmap_ext; intros; simpl; apply app_nil_r.
  - cbn [seq for_each]. rewrite pad_frames_spec by done. simpl.
    rewrite IH by (by rewrite length_fmap).
    rewrite <- !list_fmap_compose. f_equal. f_equal.
    all: apply list_fmap_ext; intros; simpl; by rewrite <- app_assoc.
Qed.

Lemma pad_history_spec k dX dY :
  length dX = 3 → length dY = 3 →
  pad_history k dX dY
    = Ok ((λ f, f ++ replicate k BLIND_VALUE) <$> dX,
          (λ f, f ++ replicate k BLIND_VALUE) <$> dY).
Proof. apply pad_history_loop. Qed.

Lemma assignment_count dim asg (k : nat) :
  is_assignment dim asg → k ≤ dim →
  length (filter (λ a, Z.of_nat dim - Z.of_nat k ≤ a)%Z asg) = k.
Proof.
  intros Hasg Hk. rewrite Hasg.
  replace dim with ((dim - k) + k) at 2 by lia.
  rewrite seq_app, fmap_app, filter_app, length_app.
  assert (∀ l, Forall (λ n, n < dim - k) l →
            filter (λ a, Z.of_nat dim - Z.of_nat k ≤ a)%Z
              (Z.of_nat <$> l) = []) as Hnone.
  { induction 1 as [|n l Hn _ IH]; [done |].
    rewrite fmap_cons, filter_cons_False by lia. done. }
  rewrite Hnone by (apply Forall_forall; intros n [_ Hn]%elem_of_seq; lia).
  assert (∀ l, Forall (λ n, dim - k ≤ n) l →
            length (filter (λ a, Z.of_nat dim - Z.of_nat k ≤ a)%Z
              (Z.of_nat <$> l)) = length l) as Hall.
  { induction 1 as [|n l Hn _ IH]; [done |].
    rewrite fmap_cons, filter_cons_True by lia. simpl. by rewrite IH. }
  rewrite Hall, length_seq; [done |].
  apply Forall_forall. intros n [Hn _]%elem_of_seq. lia.
Qed.

Lemma newDataColsValues_spec dim (k : nat) asg newX newY :
  is_assignment dim asg → k ≤ dim → dim ≤ length newX → dim ≤ length newY →
  ∃ cX cY,
    newDataColsValues dim (Z.of_nat k) asg newX newY = Ok (cX, cY) ∧
    length cX = k ∧ length cY = k.
Proof.
  intros Hasg Hk HX HY. unfold newDataColsValues.
  pose proof (assignment_length _ _ Hasg) as Hlen.
  set (P := λ a : Z, (Z.of_nat dim - Z.of_nat k ≤ a)%Z).
  set (I := λ (m : nat) (s : list Z * list Z),
    length s.1 = length (filter P (take m asg)) ∧
    length s.2 = length (filter P (take m asg))).
  match goal with |- context [for_range ?n ?b ?s] =>
    destruct (for_range_inv I b n s) as ([cX cY] & -> & HcX & HcY) end.
  - unfold I. by rewrite take_0.
  - intros i [cX cY] Hi [HcX HcY]. simpl in *.
    destruct (vec_at_lt asg i) as (a & Ha & ->); [lia |]. simpl.
    unfold I. rewrite (take_S_r _ _ _ Ha), filter_app, !length_app. simpl.
    destruct (assignment_lookup _ _ _ _ Hasg Ha) as (n & -> & Hn).
    case_decide as Hp.
    + destruct (lookup_lt_is_Some_2 newX n) as [vx Hvx]; [lia |].
      destruct (lookup_lt_is_Some_2 newY n) as [vy Hvy]; [lia |].
      rewrite (vec_at_int_Ok _ _ _ Hvx), (vec_at_int_Ok _ _ _ Hvy). simpl.
      eexists. split; [done |]. simpl. rewrite !length_app.
      rewrite filter_cons_True by done. simpl. lia.
    + eexists. split; [done |]. simpl.
      rewrite filter_cons_False by done. simpl. lia.
  - simpl in *. exists cX, cY. split; [done |].
    rewrite take_ge in HcX, HcY by lia.
    rewrite HcX, HcY. split; by apply assignment_count.
Qed.

Lemma frames_insert d N j f :
  frames d N → length f = N → frames (<[j:=f]> d) N.
Proof.
  intros [Hl HF] Hf. split; [by rewrite length_insert | by apply Forall_insert].
Qed.

Lemma frames_at d N j :
  frames d N → j < 3 → ∃ f, vec_at d j = Ok f ∧ length f = N.
Proof.
  intros [Hl HF] Hj. destruct (vec_at_lt d j) as (f & Hf & ->); [lia |].
  exists f. split; [done |]. by eapply (Forall_lookup_1 _ _ _ _ HF).
Qed.

Lemma backfill_spec dim (k : nat) cX cY newIDS dX dY ids good :
  frames dX dim → frames dY dim → k ≤ dim →
  k ≤ length cX → k ≤ length cY → k ≤ length newIDS →
  ∃ dX' dY',
    backfill dim (Z.of_nat k) cX cY newIDS dX dY ids good
      = Ok (dX', dY', ids ++ take k newIDS, good ++ replicate k 0%Z) ∧
    frames dX' dim ∧ frames dY' dim.
Proof.
  intros HdX HdY Hk HcX HcY Hnew. unfold backfill. rewrite Nat2Z.id.
  set (I := λ (m : nat) (s : list (list Z) * list (list Z) * list Z * list Z),
    frames s.1.1.1 dim ∧ frames s.1.1.2 dim ∧
    s.1.2 = ids ++ take m newIDS ∧ s.2 = good ++ replicate m 0%Z).
  match goal with |- context [for_range ?n ?b ?s] =>
    destruct (for_range_inv I b n s)
      as ([[[dX' dY'] ids'] good'] & -> & HX' & HY' & Hids & Hgood) end.
  - unfold I. simpl. by rewrite take_0, !app_nil_r.
  - intros i [[[dX1 dY1] ids1] good1] Hi HI. unfold I in HI. simpl in HI.
    destruct HI as (HX1 & HY1 & -> & ->). simpl in *.
    set (J := λ (_ : nat) (s : list (list Z) * list (list Z)),
      frames s.1 dim ∧ frames s.2 dim).
    match goal with |- context [for_range ?n ?b ?s] =>
      destruct (for_range_inv J b n s) as ([dX2 dY2] & -> & HX2 & HY2) end.
    + done.
    + intros j [dX2 dY2] Hj [HX2 HY2]. simpl in *.
      destruct (frames_at _ _ j HX2 Hj) as (fx & -> & Hfx).
      destruct (frames_at _ _ j HY2 Hj) as (fy & -> & Hfy).
      destruct (vec_at_lt cX i) as (vx & _ & ->); [lia |].
      destruct (vec_at_lt cY i) as (vy & _ & ->); [lia |]. simpl.
      replace (Z.of_nat dim - Z.of_nat k + Z.of_nat i)%Z
        with (Z.of_nat (dim - k + i)) by lia.
      assert (dim - k + i < dim) as Hidx by lia.
      rewrite (vec_set_int_Ok fx) by (by rewrite Hfx). simpl.
      rewrite vec_set_Ok by (destruct HX2; lia). simpl.
      rewrite (vec_set_int_Ok fy) by (by rewrite Hfy). simpl.
      rewrite vec_set_Ok by (destruct HY2; lia). simpl.
      eexists. split; [done |]. unfold J. simpl.
      split; apply frames_insert; try done; by rewrite length_insert.
    + simpl in *.
      destruct (vec_at_lt newIDS i) as (id & Hid & ->); [lia |]. simpl.
      eexists. split; [done |]. unfold I. cbn [fst snd].
      rewrite (take_S_r _ _ _ Hid), replicate_S_end, !app_assoc. done.
  - simpl in *. subst. by exists dX', dY'.
Qed.

(** ** get_n_new_ids *)

Lemma skip_used_Some fuel :
  ∀ lut id id',
    skip_used fuel lut id = Some id' →
    (id ≤ id')%Z ∧ (id' ∉ lut) ∧ ∀ z, (id ≤ z < id')%Z → z ∈ lut.
Proof.
  induction fuel as [|fuel IH]; intros lut id id'; simpl; [done |].
  case_decide as Hin.
  - intros (Hle & Hnot & Hbelow)%IH. split_and!; [lia | done |].
    intros z Hz. destruct (decide (z = id)) as [-> | ?]; [done |].
    apply Hbelow. lia.
  - intros [= <-]. split_and!; [lia | done | lia].
Qed.

Lemma skip_used_None fuel :
  ∀ lut id,
    skip_used fuel lut id = None →
    ∀ j, j < fuel → (id + Z.of_nat j)%Z ∈ lut.
Proof.
  induction fuel as [|fuel IH]; intros lut id; simpl; [lia |].
  case_decide as Hin; [| done].
  intros Hnone j Hj. destruct j as [|j].
  - by rewrite Z.add_0_r.
  - replace (id + Z.of_nat (S j))%Z with (id + 1 + Z.of_nat j)%Z by lia.
    apply (IH _ _ Hnone). lia.
Qed.

(** The while loop ends: a finite set cannot hold [size lut + 1] integers. *)
Lemma skip_used_total (lut : gset Z) id :
  ∃ id', skip_used (S (size lut)) lut id = Some id'.
Proof.
  destruct (skip_used (S (size lut)) lut id) as [id'|] eqn:E; [by exists id' |].
  exfalso. pose proof (skip_used_None _ _ _ E) as Hall.
  set (l := (λ j : nat, (id + Z.of_nat j)%Z) <$> seq 0 (S (size lut))).
  assert (NoDup l) as Hnd.
  { apply NoDup_fmap_2; [| apply NoDup_seq]. intros a b ?. lia. }
  assert (list_to_set l ⊆ lut) as Hsub.
  { intros z Hz. apply elem_of_list_to_set in Hz.
    apply list_elem_of_fmap in Hz as (j & -> & [_ Hj]%elem_of_seq).
    apply Hall. lia. }
  apply subseteq_size in Hsub. rewrite size_list_to_set in Hsub by done.
  unfold l in Hsub. rewrite length_fmap, length_seq in Hsub. lia.
Qed.

Lemma mint_loop_spec n :
  ∀ (lut : gset Z) id,
    (0 ≤ id)%Z → (∀ z, (0 ≤ z < id)%Z → z ∈ lut) →
    ∃ new, mint_loop n lut id = Ok new ∧ length new = n ∧
      ∀ i x, new !! i = Some x →
        (0 ≤ x)%Z ∧ (x ∉ lut) ∧ (x ∉ take i new) ∧
        ∀ z, (0 ≤ z < x)%Z → z ∈ lut ∨ z ∈ take i new.
Proof.
  induction n as [|n IH]; intros lut id Hid Hbelow; simpl.
  - exists []. split_and!; [done.. |]. intros i x. by rewrite lookup_nil.
  - destruct (skip_used_total lut id) as [id' E]. simpl in E. rewrite E.
    change (skip_used (S (size lut)) lut id = Some id') in E.
    apply skip_used_Some in E as (Hle & Hnot & Hmid).
    destruct (IH ({[id']} ∪ lut) id') as (rest & -> & Hlen & Hrest); [lia | |].
    { intros z Hz. destruct (decide (z = id')) as [-> | ?];
        [by apply elem_of_union_l, elem_of_singleton |].
      apply elem_of_union_r. destruct (decide (z < id)%Z).
      - apply Hbelow. lia.
      - apply Hmid. lia. }
    simpl. exists (id' :: rest). split_and!; [done | simpl; lia |].
    intros [|i] x Hx; simpl in Hx.
    + injection Hx as <-. simpl. split_and!; [lia | done | by intros ?%elem_of_nil |].
      intros z Hz. left. destruct (decide (z < id)%Z).
      * apply Hbelow. lia.
      * apply Hmid. lia.
    + destruct (Hrest i x Hx) as (Hx0 & Hxl & Hxt & Hmin). simpl.
      split_and!; [done | | |].
      * intros ?. by apply Hxl, elem_of_union_r.
      * intros [-> | ?]%elem_of_cons; [| done].
        by apply Hxl, elem_of_union_l, elem_of_singleton.
      * intros z Hz. destruct (Hmin z Hz) as [Hz' | Hz'].
        -- apply elem_of_union in Hz' as [->%elem_of_singleton | ?];
             [right; left | by left].
        -- right. by right.
Qed.

Lemma get_n_new_ids_spec ids (k : nat) :
  ∃ new, get_n_new_ids ids (Z.of_nat k) = Ok new ∧ length new = k ∧
    ∀ i x, new !! i = Some x → least_unused (ids ++ take i new) x.
Proof.
  unfold get_n_new_ids. rewrite Nat2Z.id.
  destruct (mint_loop_spec k (list_to_set ids) 0) as (new & -> & Hlen & Hnew);
    [lia | lia |].
  exists new. split_and!; [done.. |].
  intros i x Hx. destruct (Hnew i x Hx) as (Hx0 & Hxl & Hxt & Hmin).
  rewrite elem_of_list_to_set in Hxl. split_and!; [done | |].
  - intros [? | ?]%elem_of_app; done.
  - intros z Hz. apply elem_of_app.
    destruct (Hmin z Hz) as [?%elem_of_list_to_set | ?]; [by left | by right].
Qed.

Lemma least_unused_NoDup ids new :
  NoDup ids →
  (∀ i x, new !! i = Some x → least_unused (ids ++ take i new) x) →
  NoDup (ids ++ new).
Proof.
  intros Hnd Hnew. apply NoDup_app. split_and!; [done | |].
  - intros x Hx Hin. apply list_elem_of_lookup in Hin as [i Hi].
    destruct (Hnew i x Hi) as (_ & Hnot & _). apply Hnot, elem_of_app. by left.
  - apply NoDup_alt. intros i j x Hi Hj.
    destruct (decide (i = j)) as [| Hne]; [done | exfalso].
    assert (∀ a b, a < b → new !! a = Some x → new !! b = Some x → False) as Hlt.
    { intros a b Hab Ha Hb. destruct (Hnew b x Hb) as (_ & Hnot & _).
      apply Hnot, elem_of_app. right. apply elem_of_take. by exists a. }
    destruct (decide (i < j)); [by eapply (Hlt i j) | eapply (Hlt j i); [lia | done..]].
Qed.

(** ** The first tick *)

Lemma push_data_intern_first_step_spec t xs ys :
  push_data_intern_first_step t xs ys
    = Ok (Tracker (m_matData_X t ++ [xs; xs; xs]) (m_matData_Y t ++ [ys; ys; ys])
            (Z.of_nat <$> seq 0 (length xs)) (m_vecCurrentAssignment t)
            (m_vecGoodDataCount t ++ replicate (length xs) 1%Z)).
Proof.
  unfold push_data_intern_first_step.
  set (n := length xs).
  set (I := λ (m : nat) (s : list Z * list Z),
    length s.1 = n ∧ (∀ i, i < m → s.1 !! i = Some (Z.of_nat i)) ∧
    s.2 = m_vecGoodDataCount t ++ replicate m 1%Z).
  match goal with |- context [for_range ?k ?b ?s] =>
    destruct (for_range_inv I b k s) as ([ids good] & -> & Hl & Hv & Hg) end.
  - unfold I. cbn [fst snd]. rewrite length_resize, app_nil_r.
    split_and!; [done | lia | done].
  - intros i [ids good] Hi HI. unfold I in HI. cbn [fst snd] in HI.
    destruct HI as (Hl & Hv & ->).
    rewrite vec_set_Ok by lia. simpl. eexists. split; [done |].
    unfold I. cbn [fst snd]. rewrite length_insert.
    split_and!; [done | | by rewrite replicate_S_end, app_assoc].
    intros i' Hi'. destruct (decide (i' = i)) as [-> | Hne].
    + by rewrite list_lookup_insert_eq by lia.
    + rewrite list_lookup_insert_ne by done. apply Hv. lia.
  - cbn [fst snd] in *. simpl. subst good. do 2 f_equal.
    apply list_eq. intros i. rewrite list_lookup_fmap.
    destruct (decide (i < n)) as [Hi | Hi].
    + rewrite Hv by done. by rewrite lookup_seq_lt.
    + rewrite lookup_ge_None_2 by lia. by rewrite lookup_seq_ge by lia.
Qed.

(** ** The three ticks of a tracking tracker *)

Lemma frames_tail_snoc d N a :
  frames d N → length a = N → frames (tail (d ++ [a])) N.
Proof.
  intros (f0 & f1 & f2 & -> & H0 & H1 & H2)%frames_lookup Ha.
  simpl. by apply frames_intro.
Qed.

Lemma frames_fmap d N M (g : list Z → list Z) :
  frames d N → (∀ f, length f = N → length (g f) = M) → frames (g <$> d) M.
Proof.
  intros [Hl HF] Hg. split; [by rewrite length_fmap |].
  apply Forall_fmap. eapply Forall_impl; [exact HF |]. intros f Hf. by apply Hg.
Qed.

Section Ticks.

Variable solve : SimpleMatrix → list Z.
Hypothesis Hsolve : solver_contract solve.

Lemma diff_zero_spec t N xs ys :
  shape t N → length xs = N → length ys = N →
  ∃ pX pY m aX aY,
    predict N (m_matData_X t) (m_vecGoodDataCount t) = Ok pX ∧
    predict N (m_matData_Y t) (m_vecGoodDataCount t) = Ok pY ∧
    createDistMat pX pY xs ys = Ok m ∧
    push_data_intern_diff_zero solve N t xs ys
      = Ok (Tracker (tail (m_matData_X t ++ [aX])) (tail (m_matData_Y t ++ [aY]))
              (m_vecIDs t) (solve m) (Z.succ <$> m_vecGoodDataCount t)) ∧
    is_assignment N (solve m) ∧ length aX = N ∧ length aY = N ∧
    ∀ i a, solve m !! i = Some a →
      aX !! Z.to_nat a = xs !! i ∧ aY !! Z.to_nat a = ys !! i.
Proof.
  intros (HX & HY & Hids & Hgood) Hxs Hys.
  destruct (predict_total _ N (m_vecGoodDataCount t) N HX) as (pX & HpX & LpX);
    [lia.. |].
  destruct (predict_total _ N (m_vecGoodDataCount t) N HY) as (pY & HpY & LpY);
    [lia.. |].
  destruct (createDistMat_total pX pY xs ys) as (m & Hm & Lm & _); [lia.. |].
  assert (is_assignment N (solve m)) as Hasg.
  { rewrite <- LpX, <- Lm. apply Hsolve. }
  destruct (push_and_rearrange_data_spec N (m_matData_X t) (m_matData_Y t)
              (solve m) xs ys) as (aX & aY & Hpush & LaX & LaY & Hval);
    [done | lia.. |].
  exists pX, pY, m, aX, aY. split_and!; try done.
  unfold push_data_intern_diff_zero.
  rewrite HpX. simpl. rewrite HpY. simpl. rewrite Hm. simpl.
  rewrite Hpush. done.
Qed.

Lemma diff_gtz_spec t N xs ys (k : nat) :
  shape t N → 0 < k → length xs + k = N → length ys = length xs →
  ∃ m aX aY rows,
    push_data_intern_diff_gtz solve (Z.of_nat k) t xs ys
      = Ok (Tracker (delete_rows rows <$> tail (m_matData_X t ++ [aX]))
              (delete_rows rows <$> tail (m_matData_Y t ++ [aY]))
              (delete_rows rows (m_vecIDs t)) (solve m)
              (Z.succ <$> delete_rows rows (m_vecGoodDataCount t))) ∧
    is_assignment N (solve m) ∧
    rows ≡ₚ drop (length xs) (solve m) ∧ StronglySorted Z.lt rows ∧
    length rows = k ∧ Forall (λ r, 0 ≤ r < Z.of_nat N)%Z rows ∧
    length aX = N ∧ length aY = N ∧
    ∀ i a, solve m !! i = Some a →
      aX !! Z.to_nat a = (xs ++ replicate k BLIND_VALUE) !! i ∧
      aY !! Z.to_nat a = (ys ++ replicate k BLIND_VALUE) !! i.
Proof.
  intros (HX & HY & Hids & Hgood) Hk Hxs Hys.
  destruct (frames_at _ _ 0 HX) as (f0 & Hf0 & Lf0); [lia |].
  destruct (predict_total _ N (m_vecGoodDataCount t) N HX) as (pX & HpX & LpX);
    [lia.. |].
  destruct (predict_total _ N (m_vecGoodDataCount t) N HY) as (pY & HpY & LpY);
    [lia.. |].
  set (xs' := xs ++ replicate k BLIND_VALUE).
  set (ys' := ys ++ replicate k BLIND_VALUE).
  assert (length xs' = N) as Lxs' by (unfold xs'; rewrite length_app, length_replicate; lia).
  assert (length ys' = N) as Lys' by (unfold ys'; rewrite length_app, length_replicate; lia).
  destruct (createDistMat_total pX pY xs' ys') as (m & Hm & Lm & _); [lia.. |].
  assert (is_assignment N (solve m)) as Hasg.
  { rewrite <- LpX, <- Lm. apply Hsolve. }
  destruct (push_and_rearrange_data_spec N (m_matData_X t) (m_matData_Y t)
              (solve m) xs' ys') as (aX & aY & Hpush & LaX & LaY & Hval);
    [done | lia.. |].
  destruct (delRows_of_spec N (solve m) k Hasg) as (rows & Hrows & Hperm & Hsort & Lrows & Hrange);
    [lia |].
  assert (Forall (λ r, 0 ≤ r)%Z rows) as Hnonneg.
  { eapply Forall_impl; [exact Hrange |]. simpl. lia. }
  exists m, aX, aY, rows. split_and!; try done.
  - unfold push_data_intern_diff_gtz. rewrite Nat2Z.id.
    rewrite Hf0. simpl. rewrite Lf0.
    rewrite HpX. simpl. rewrite HpY. simpl.
    fold xs' ys'. rewrite Hm. simpl. rewrite Hpush. simpl.
    rewrite Hrows. simpl. unfold removeRowsFromDataMatrix.
    rewrite (removeRows_axis_spec _ N) by (by apply frames_tail_snoc). simpl.
    rewrite (removeRows_axis_spec _ N) by (by apply frames_tail_snoc). simpl.
    rewrite !removeElemsFromVector_spec by done.
    do 2 f_equal.
    all: apply list_fmap_ext; intros; by apply removeElemsFromVector_spec.
  - replace (length xs) with (N - k) by lia. done.
Qed.

Lemma diff_ltz_spec t N xs ys (k : nat) :
  shape t N → 0 < k → length xs = N + k → length ys = length xs →
  ∃ m hX hY aX aY newIDS,
    push_data_intern_diff_ltz solve (- Z.of_nat k) t xs ys
      = Ok (Tracker (tail (hX ++ [aX])) (tail (hY ++ [aY]))
              (m_vecIDs t ++ newIDS) (solve m)
              (Z.succ <$> (m_vecGoodDataCount t ++ replicate k 0%Z)), false) ∧
    is_assignment (N + k) (solve m) ∧
    frames hX (N + k) ∧ frames hY (N + k) ∧
    length aX = N + k ∧ length aY = N + k ∧
    (∀ i a, solve m !! i = Some a →
       aX !! Z.to_nat a = xs !! i ∧ aY !! Z.to_nat a = ys !! i) ∧
    length newIDS = k ∧
    ∀ i x, newIDS !! i = Some x → least_unused (m_vecIDs t ++ take i newIDS) x.
Proof.
  intros (HX & HY & Hids & Hgood) Hk Hxs Hys.
  set (pad := λ f : list Z, f ++ replicate k BLIND_VALUE).
  assert (∀ f, length f = N → length (pad f) = N + k) as Lpad.
  { intros f Hf. unfold pad. rewrite length_app, length_replicate. lia. }
  pose proof (frames_fmap _ _ _ pad HX Lpad) as HpX.
  pose proof (frames_fmap _ _ _ pad HY Lpad) as HpY.
  destruct (frames_at _ _ 0 HpX) as (f0 & Hf0 & Lf0); [lia |].
  set (good1 := m_vecGoodDataCount t ++ replicate k 1%Z).
  assert (length good1 = N + k) as Lgood1
    by (unfold good1; rewrite length_app, length_replicate; lia).
  destruct (predict_total _ (N + k) good1 (N + k) HpX) as (pX & EpX & LpX);
    [lia.. |].
  destruct (predict_total _ (N + k) good1 (N + k) HpY) as (pY & EpY & LpY);
    [lia.. |].
  destruct (createDistMat_total pX pY xs ys) as (m & Hm & Lm & _); [lia.. |].
  assert (is_assignment (N + k) (solve m)) as Hasg.
  { rewrite <- LpX, <- Lm. apply Hsolve. }
  destruct (newDataColsValues_spec (N + k) k (solve m) xs ys Hasg)
    as (cX & cY & Hcols & LcX & LcY); [lia.. |].
  destruct (get_n_new_ids_spec (m_vecIDs t) k) as (newIDS & Hnew & Lnew & Hleast).
  destruct (backfill_spec (N + k) k cX cY newIDS (pad <$> m_matData_X t)
              (pad <$> m_matData_Y t) (m_vecIDs t) (m_vecGoodDataCount t))
    as (hX & hY & Hback & HhX & HhY); [done | done | lia.. |].
  destruct (push_and_rearrange_data_spec (N + k) hX hY (solve m) xs ys)
    as (aX & aY & Hpush & LaX & LaY & Hval); [done | lia.. |].
  exists m, hX, hY, aX, aY, newIDS. split_and!; try done.
  unfold push_data_intern_diff_ltz.
  replace (- Z.of_nat k * -1)%Z with (Z.of_nat k) by lia. rewrite Nat2Z.id.
  destruct HX as [L3X _]. destruct HY as [L3Y _].
  rewrite pad_history_spec by done. simpl. fold pad.
  rewrite Hf0. simpl. rewrite Lf0. fold good1.
  rewrite EpX. simpl. rewrite EpY. simpl. rewrite Hm. simpl.
  rewrite Hcols. simpl. rewrite Hnew. simpl.
  replace (take (length good1 - k) good1) with (m_vecGoodDataCount t).
  2:{ unfold good1. rewrite length_app, length_replicate.
      replace (length (m_vecGoodDataCount t) + k - k)
        with (length (m_vecGoodDataCount t)) by lia.
      by rewrite take_app_length. }
  rewrite Hback. simpl. rewrite Hpush. simpl.
  rewrite take_ge by lia. unfold size_mismatch_warning.
  by rewrite bool_decide_eq_false_2 by lia.
Qed.

(** pushData on a tracking tracker dispatches on the sign of DIFF. *)
Lemma pushData_tracking t N xs ys :
  tracking t N → 0 < length xs → length xs = length ys →
  pushData solve t xs ys =
    run (let DIFF := (Z.of_nat N - Z.of_nat (length xs))%Z in
         if decide (DIFF < 0)%Z then
           '(t', _) ← push_data_intern_diff_ltz solve DIFF t xs ys; Ok t'
         else if decide (0 < DIFF)%Z then
           push_data_intern_diff_gtz solve DIFF t xs ys
         else push_data_intern_diff_zero solve N t xs ys).
Proof.
  intros [HN (HX & _)] Hpos Hlen. unfold pushData, ICLASSERT_RETURN.
  rewrite !decide_True by done.
  rewrite decide_False by (destruct HX; lia).
  destruct (frames_at _ _ 0 HX) as (f0 & -> & Lf0); [lia |].
  simpl. by rewrite Lf0.
Qed.

Lemma pushData_equal t N xs ys :
  tracking t N → length xs = N → length ys = N →
  pushData solve t xs ys = run (push_data_intern_diff_zero solve N t xs ys).
Proof.
  intros Ht Hxs Hys. pose proof Ht as [HN _].
  rewrite (pushData_tracking t N) by (done || lia). simpl.
  by rewrite !decide_False by lia.
Qed.

Lemma pushData_shrink t N xs ys (k : nat) :
  tracking t N → 0 < k → 0 < length xs → length xs + k = N →
  length ys = length xs →
  pushData solve t xs ys
    = run (push_data_intern_diff_gtz solve (Z.of_nat k) t xs ys).
Proof.
  intros Ht Hk Hpos Hxs Hys.
  rewrite (pushData_tracking t N) by (done || lia). simpl.
  rewrite decide_False by lia. rewrite decide_True by lia.
  by replace (Z.of_nat N - Z.of_nat (length xs))%Z with (Z.of_nat k) by lia.
Qed.

Lemma pushData_grow t N xs ys (k : nat) :
  tracking t N → 0 < k → length xs = N + k → length ys = length xs →
  pushData solve t xs ys
    = run ('(t', _) ← push_data_intern_diff_ltz solve (- Z.of_nat k) t xs ys;
           Ok t').
Proof.
  intros Ht Hk Hxs Hys.
  rewrite (pushData_tracking t N) by (done || lia). simpl.
  rewrite decide_True by lia.
  by replace (Z.of_nat N - Z.of_nat (length xs))%Z with (- Z.of_nat k)%Z by lia.
Qed.

End Ticks.

(** ** getID after the first tick *)

Lemma getID_loop_first xs ys ids x y i n :
  ∀ s,
    xs !! i = Some x → ys !! i = Some y →
    (∀ j, j < i → ¬ (xs !! j = Some x ∧ ys !! j = Some y)) →
    length ys = length xs → s ≤ i < s + n →
    getID_loop (seq s n) xs ys ids x y = vec_at ids i.
Proof.
  induction n as [|n IH]; intros s Hx Hy Hfirst Hlen Hs; [lia |].
  cbn [seq getID_loop].
  destruct (decide (s = i)) as [-> | Hne].
  - rewrite (vec_at_Ok _ _ _ Hx). simpl. rewrite decide_True by done.
    rewrite (vec_at_Ok _ _ _ Hy). simpl. by rewrite decide_True.
  - assert (s < length xs) as Hsx.
    { apply lookup_lt_Some in Hx. lia. }
    destruct (vec_at_lt xs s Hsx) as (xs_s & Hxs & ->). simpl.
    destruct (vec_at_lt ys s) as (ys_s & Hys & Eys); [lia |].
    case_decide as Hex.
    + rewrite Eys. simpl. case_decide as Hey.
      * exfalso. apply (Hfirst s); [lia |]. by subst.
      * apply IH; try done. lia.
    + apply IH; try done. lia.
Qed.

(** ** The solvers used to run the tracker honour the contract *)

Lemma identity_solver_contract : solver_contract identity_solver.
Proof. intros m. by unfold is_assignment, identity_solver. Qed.

Lemma reversing_solver_contract : solver_contract reversing_solver.
Proof. intros m. unfold is_assignment, reversing_solver. apply reverse_Permutation. Qed.

(** * The claims *)

(** C1 (the code departs from the claim).  On a freshly constructed tracker
    both history deques are empty, and getID starts by taking
    [m_matData[X][2]]: the access lies outside the deque, so the call leaves
    defined behaviour instead of returning -1, whatever (x, y) is. *)
Theorem getID_fresh_out_of_range (x y : Z) : getID fresh x y = Err OutOfRange.
Proof. reflexivity. Qed.

(** C3.  A call pushData(xs, ys) with an empty xs, or with xs and ys of
    different lengths, is left through ICLASSERT_RETURN: it fails with
    InvalidArgument and the tracker is exactly the one before the call. *)
Theorem pushData_rejects_invalid solve t (xs ys : list Z) :
  length xs = 0 ∨ length xs ≠ length ys →
  pushData solve t xs ys = Returned InvalidArgument t.
Proof.
  intros H. unfold pushData, ICLASSERT_RETURN. case_decide as Hpos; [| done].
  case_decide as Hlen; [| done]. lia.
Qed.

(** C4.  predict chooses the predictor of slot y by its freshness counter:
    counter 1 gives the newest sample c unchanged, counter 2 the linear
    extrapolation c + (c - b) of the two newest samples, and a counter of 3
    or more the second-difference extrapolation
    c + (c - b) + ((c - b) - (b - a)) of the three samples a, b, c (oldest to
    newest).  On three frames of N slots the prediction exists and has one
    entry per slot. *)
Theorem predict_by_freshness (N dim : nat) (f0 f1 f2 good : list Z) :
  length f0 = N → length f1 = N → length f2 = N → length good = N → dim ≤ N →
  ∃ pred, predict dim [f0; f1; f2] good = Ok pred ∧ length pred = dim ∧
    ∀ y g a b c,
      y < dim → good !! y = Some g →
      f0 !! y = Some a → f1 !! y = Some b → f2 !! y = Some c →
      (g = 1%Z → pred !! y = Some c) ∧
      (g = 2%Z → pred !! y = Some (c + (c - b))%Z) ∧
      ((3 ≤ g)%Z → pred !! y = Some (c + (c - b) + ((c - b) - (b - a)))%Z).
Proof.
  intros H0 H1 H2 Hg Hdim.
  destruct (predict_total [f0; f1; f2] N good dim) as (pred & Hpred & Hlen);
    [by apply frames_intro | lia.. |].
  exists pred. split_and!; [done.. |].
  intros y g a b c Hy Eg Ea Eb Ec.
  apply collect_range in Hpred as [_ Hslots].
  destruct (Hslots y Hy) as (p & -> & Hp).
  unfold predict_slot in Hp. rewrite (vec_at_Ok _ _ _ Eg) in Hp. simpl in Hp.
  unfold vec_at in Hp. rewrite Ea, Eb, Ec in Hp. simpl in Hp.
  split_and!; intros Hcase.
  - rewrite decide_True in Hp by done. congruence.
  - rewrite decide_False, decide_True in Hp by lia. by injection Hp as <-.
  - rewrite !decide_False in Hp by lia. by injection Hp as <-.
Qed.

Lemma predict_by_freshness_witness :
  ∃ pred, predict 3 [[5; 5; 5]; [7; 7; 7]; [11; 11; 11]]%Z [1; 2; 3]%Z = Ok pred ∧
    length pred = 3 ∧
    ∀ y g a b c,
      y < 3 → [1; 2; 3]%Z !! y = Some g →
      [5; 5; 5]%Z !! y = Some a → [7; 7; 7]%Z !! y = Some b →
      [11; 11; 11]%Z !! y = Some c →
      (g = 1%Z → pred !! y = Some c) ∧
      (g = 2%Z → pred !! y = Some (c + (c - b))%Z) ∧
      ((3 ≤ g)%Z → pred !! y = Some (c + (c - b) + ((c - b) - (b - a)))%Z).
Proof.
  apply (predict_by_freshness 3 3 [5; 5; 5]%Z [7; 7; 7]%Z [11; 11; 11]%Z [1; 2; 3]%Z);
    simpl; lia.
Defined.




(** C9.  The first pushData(xs, ys) on a fresh tracker, with D = |xs| > 0:
    the three history frames of each axis are the pushed values, the
    identities are 0..D-1 in slot order, every freshness counter is 1, and
    when the pushed points are pairwise distinct getID(xs[i], ys[i]) returns i
    for every i below D. *)
Theorem first_tick solve (xs ys : list Z) :
  0 < length xs → length xs = length ys →
  ∃ t', pushData solve fresh xs ys = Done t' ∧
    m_matData_X t' = [xs; xs; xs] ∧ m_matData_Y t' = [ys; ys; ys] ∧
    m_vecIDs t' = Z.of_nat <$> seq 0 (length xs) ∧
    m_vecGoodDataCount t' = replicate (length xs) 1%Z ∧
    (NoDup (zip xs ys) →
     ∀ i x y, xs !! i = Some x → ys !! i = Some y →
       getID t' x y = Ok (Z.of_nat i)).
Proof.
  intros Hpos Hlen. unfold pushData, ICLASSERT_RETURN. rewrite !decide_True by done.
  rewrite push_data_intern_first_step_spec. simpl.
  eexists. split; [done |]. simpl. split_and!; [done.. |].
  intros Hnd i x y Hx Hy. unfold getID. simpl.
  assert (i < length xs) as Hi by (by eapply lookup_lt_Some).
  rewrite (getID_loop_first xs ys _ x y i (length xs) 0); try done; [| | lia].
  - apply vec_at_Ok. rewrite list_lookup_fmap, lookup_seq_lt by done. done.
  - intros j Hj [Hxj Hyj]. assert (j = i); [| lia].
    apply (NoDup_lookup (zip xs ys) j i (x, y) Hnd); by apply lookup_zip_Some.
Qed.

Lemma first_tick_witness :
  ∃ t', pushData identity_solver fresh [0; 10]%Z [0; 10]%Z = Done t' ∧
    m_matData_X t' = [[0; 10]; [0; 10]; [0; 10]]%Z ∧
    m_matData_Y t' = [[0; 10]; [0; 10]; [0; 10]]%Z ∧
    m_vecIDs t' = Z.of_nat <$> seq 0 2 ∧
    m_vecGoodDataCount t' = replicate 2 1%Z ∧
    (NoDup (zip [0; 10]%Z [0; 10]%Z) →
     ∀ i x y, [0; 10]%Z !! i = Some x → [0; 10]%Z !! i = Some y →
       getID t' x y = Ok (Z.of_nat i)).
Proof.
  apply (first_tick identity_solver [0; 10]%Z [0; 10]%Z); simpl; lia.
Defined.

Lemma pushData_rejects_invalid_witness :
  pushData identity_solver four_slots [13; 3]%Z [13]%Z
    = Returned InvalidArgument four_slots.
Proof.
  apply (pushData_rejects_invalid identity_solver four_slots [13; 3]%Z [13]%Z).
  right. simpl. lia.
Defined.

(** ** Shapes after a tick *)

Lemma shape_after_equal t N aX aY asg :
  shape t N → length aX = N → length aY = N →
  shape (Tracker (tail (m_matData_X t ++ [aX])) (tail (m_matData_Y t ++ [aY]))
           (m_vecIDs t) asg (Z.succ <$> m_vecGoodDataCount t)) N.
Proof.
  intros (HX & HY & Hids & Hgood) LaX LaY. unfold shape. simpl.
  split_and!; [by apply frames_tail_snoc.. | done | by rewrite length_fmap].
Qed.

Lemma shape_after_shrink t N aX aY asg rows :
  shape t N → length aX = N → length aY = N →
  StronglySorted Z.lt rows → Forall (λ r, 0 ≤ r < Z.of_nat N)%Z rows →
  shape (Tracker (delete_rows rows <$> tail (m_matData_X t ++ [aX]))
           (delete_rows rows <$> tail (m_matData_Y t ++ [aY]))
           (delete_rows rows (m_vecIDs t)) asg
           (Z.succ <$> delete_rows rows (m_vecGoodDataCount t)))
        (N - length rows).
Proof.
  intros (HX & HY & Hids & Hgood) LaX LaY Hsort Hrange. unfold shape. simpl.
  assert (∀ f : list Z, length f = N →
            length (delete_rows rows f) = N - length rows) as Hdel.
  { intros f Hf. rewrite delete_rows_length; [by rewrite Hf | done |].
    by rewrite Hf. }
  split_and!.
  - eapply frames_fmap; [by apply frames_tail_snoc | done].
  - eapply frames_fmap; [by apply frames_tail_snoc | done].
  - by apply Hdel.
  - rewrite length_fmap. by apply Hdel.
Qed.

Lemma shape_after_grow t N (k : nat) hX hY aX aY asg newIDS :
  shape t N → frames hX (N + k) → frames hY (N + k) →
  length aX = N + k → length aY = N + k → length newIDS = k →
  shape (Tracker (tail (hX ++ [aX])) (tail (hY ++ [aY]))
           (m_vecIDs t ++ newIDS) asg
           (Z.succ <$> (m_vecGoodDataCount t ++ replicate k 0%Z))) (N + k).
Proof.
  intros (HX & HY & Hids & Hgood) HhX HhY LaX LaY Lnew. unfold shape. simpl.
  split_and!; [by apply frames_tail_snoc.. | |].
  - rewrite length_app. lia.
  - rewrite length_fmap, length_app, length_replicate. lia.
Qed.

(** ** Sample states, reached from [fresh] by pushData *)

Lemma tracking_two : tracking two_slots 2.
Proof.
  unfold tracking, shape, frames, two_slots. simpl.
  split_and!; (lia || by repeat constructor).
Qed.

Lemma two_slots_ids_NoDup : NoDup (m_vecIDs two_slots).
Proof. apply (bool_decide_unpack _). reflexivity. Qed.

Lemma tracking_four : tracking four_slots 4.
Proof.
  unfold tracking, shape, frames, four_slots. simpl.
  split_and!; (lia || by repeat constructor).
Qed.

(** C2.  After every pushData tick that is given a valid batch (the solver
    honouring its contract), the tick succeeds and the identities, the
    freshness counters and every frame of both history deques have the same
    slot count N, both deques hold exactly 3 frames, and N is the size of the
    batch just pushed.  The tracker before the tick is either fresh or in
    that same shape for some N > 0, so the property holds after every tick
    of a run. *)
Theorem pushData_keeps_shape solve t (xs ys : list Z) :
  solver_contract solve → t = fresh ∨ (∃ N, tracking t N) →
  0 < length xs → length xs = length ys →
  ∃ t', pushData solve t xs ys = Done t' ∧ tracking t' (length xs).
Proof.
  intros Hsolve [-> | [N Ht]] Hpos Hlen.
  - unfold pushData, ICLASSERT_RETURN. rewrite !decide_True by done.
    rewrite push_data_intern_first_step_spec. simpl.
    eexists. split; [done |]. split; [done |]. unfold shape. simpl.
    split_and!; [by apply frames_intro.. | |].
    + by rewrite length_fmap, length_seq.
    + by rewrite length_replicate.
  - pose proof Ht as [HN Hshape].
    destruct (decide (length xs = N)) as [Heq | Hne];
      [| destruct (decide (length xs < N)) as [Hlt | Hge]].
    + destruct (diff_zero_spec solve Hsolve t N xs ys)
        as (pX & pY & m & aX & aY & _ & _ & _ & Hrun & _ & LaX & LaY & _);
        [done | done | lia |].
      rewrite (pushData_equal solve t N) by (done || lia).
      rewrite Hrun. simpl. eexists. split; [done |]. split; [done |].
      rewrite Heq. by apply shape_after_equal.
    + destruct (diff_gtz_spec solve Hsolve t N xs ys (N - length xs))
        as (m & aX & aY & rows & Hrun & _ & _ & Hsort & Lrows & Hrange & LaX & LaY & _);
        [done | lia.. |].
      rewrite (pushData_shrink solve t N xs ys (N - length xs)) by (done || lia).
      rewrite Hrun. simpl. eexists. split; [done |]. split; [done |].
      replace (length xs) with (N - length rows) by lia.
      by apply shape_after_shrink.
    + destruct (diff_ltz_spec solve Hsolve t N xs ys (length xs - N))
        as (m & hX & hY & aX & aY & newIDS & Hrun & _ & HhX & HhY & LaX & LaY & _ & Lnew & _);
        [done | lia.. |].
      rewrite (pushData_grow solve t N xs ys (length xs - N)) by (done || lia).
      rewrite Hrun. simpl. eexists. split; [done |]. split; [done |].
      assert (∃ k, k = length xs - N) as [k Hk] by eauto. rewrite <- Hk in *.
      replace (length xs) with (N + k) by lia.
      by apply shape_after_grow.
Qed.

Lemma pushData_keeps_shape_witness :
  ∃ t', pushData reversing_solver two_slots
          [12; 2; 30; 40]%Z [12; 2; 30; 40]%Z = Done t' ∧
    tracking t' (length [12; 2; 30; 40]%Z).
Proof.
  apply (pushData_keeps_shape reversing_solver two_slots
           [12; 2; 30; 40]%Z [12; 2; 30; 40]%Z).
  - exact reversing_solver_contract.
  - right. exists 2. exact tracking_two.
  - simpl. lia.
  - reflexivity.
Defined.

Lemma tail_snoc_frames d N (a : list Z) :
  frames d N → tail (d ++ [a]) = tail d ++ [a].
Proof. intros [Hl _]. by destruct d. Qed.

(** C7.  A tick with D_new = D_old: the solved assignment is a permutation,
    observation i is stored into slot assignment[i] of the new frame (on both
    axes), that frame is appended as the newest one while the oldest one is
    dropped, every freshness counter grows by exactly 1, and the identities
    stay as they are. *)
Theorem equal_tick_rearranges solve t (D : nat) (xs ys : list Z) :
  solver_contract solve → tracking t D → length xs = D → length ys = D →
  ∃ t' pX pY m aX aY,
    pushData solve t xs ys = Done t' ∧
    predict D (m_matData_X t) (m_vecGoodDataCount t) = Ok pX ∧
    predict D (m_matData_Y t) (m_vecGoodDataCount t) = Ok pY ∧
    createDistMat pX pY xs ys = Ok m ∧
    m_vecCurrentAssignment t' = solve m ∧
    is_assignment D (m_vecCurrentAssignment t') ∧
    m_matData_X t' = tail (m_matData_X t) ++ [aX] ∧
    m_matData_Y t' = tail (m_matData_Y t) ++ [aY] ∧
    length aX = D ∧ length aY = D ∧
    (∀ i a, m_vecCurrentAssignment t' !! i = Some a →
       aX !! Z.to_nat a = xs !! i ∧ aY !! Z.to_nat a = ys !! i) ∧
    m_vecGoodDataCount t' = Z.succ <$> m_vecGoodDataCount t ∧
    m_vecIDs t' = m_vecIDs t.
Proof.
  intros Hsolve Ht Hxs Hys. pose proof Ht as [HD (HX & HY & _)].
  destruct (diff_zero_spec solve Hsolve t D xs ys)
    as (pX & pY & m & aX & aY & HpX & HpY & Hm & Hrun & Hasg & LaX & LaY & Hval);
    [by destruct Ht | done.. |].
  rewrite (pushData_equal solve t D) by done. rewrite Hrun. simpl.
  eexists _, pX, pY, m, aX, aY. split; [done |]. simpl.
  split_and!; try done; by eapply tail_snoc_frames.
Qed.

Lemma equal_tick_rearranges_witness :
  ∃ t' pX pY m aX aY,
    pushData reversing_solver two_slots [12; 2]%Z [12; 2]%Z = Done t' ∧
    predict 2 (m_matData_X two_slots) (m_vecGoodDataCount two_slots) = Ok pX ∧
    predict 2 (m_matData_Y two_slots) (m_vecGoodDataCount two_slots) = Ok pY ∧
    createDistMat pX pY [12; 2]%Z [12; 2]%Z = Ok m ∧
    m_vecCurrentAssignment t' = reversing_solver m ∧
    is_assignment 2 (m_vecCurrentAssignment t') ∧
    m_matData_X t' = tail (m_matData_X two_slots) ++ [aX] ∧
    m_matData_Y t' = tail (m_matData_Y two_slots) ++ [aY] ∧
    length aX = 2 ∧ length aY = 2 ∧
    (∀ i a, m_vecCurrentAssignment t' !! i = Some a →
       aX !! Z.to_nat a = [12; 2]%Z !! i ∧ aY !! Z.to_nat a = [12; 2]%Z !! i) ∧
    m_vecGoodDataCount t' = Z.succ <$> m_vecGoodDataCount two_slots ∧
    m_vecIDs t' = m_vecIDs two_slots.
Proof.
  apply (equal_tick_rearranges reversing_solver two_slots 2 [12; 2]%Z [12; 2]%Z).
  - exact reversing_solver_contract.
  - exact tracking_two.
  - reflexivity.
  - reflexivity.
Defined.



(** C5.  A tick with D_new > D_old appends exactly k = D_new - D_old slots.
    The identities of the D_old slots are unchanged and the k new ones
    follow them; each new identity is the smallest non-negative integer
    that is neither an identity of the tracker nor one minted before it in
    this tick; afterwards there are D_new identities and they are pairwise
    distinct. *)
Theorem growth_mints_least_unused solve t (D_old : nat) (xs ys : list Z) :
  solver_contract solve → tracking t D_old → NoDup (m_vecIDs t) →
  D_old < length xs → length ys = length xs →
  ∃ t' newIDS,
    pushData solve t xs ys = Done t' ∧ tracking t' (length xs) ∧
    m_vecIDs t' = m_vecIDs t ++ newIDS ∧
    length newIDS = length xs - D_old ∧
    (∀ i x, newIDS !! i = Some x →
       least_unused (m_vecIDs t ++ take i newIDS) x) ∧
    length (m_vecIDs t') = length xs ∧ NoDup (m_vecIDs t').
Proof.
  intros Hsolve Ht Hnd Hgt Hys. pose proof Ht as [HD Hshape].
  pose proof Hshape as (_ & _ & Hids & _).
  assert (∃ k, k = length xs - D_old) as [k Hk] by eauto.
  destruct (diff_ltz_spec solve Hsolve t D_old xs ys k)
    as (m & hX & hY & aX & aY & newIDS & Hrun & _ & HhX & HhY & LaX & LaY & _ & Lnew & Hleast);
    [done | lia.. |].
  rewrite (pushData_grow solve t D_old xs ys k) by (done || lia).
  rewrite Hrun. simpl. eexists _, newIDS. split; [done |]. simpl.
  split_and!; try done.
  - split; [lia |]. replace (length xs) with (D_old + k) by lia.
    by apply shape_after_grow.
  - lia.
  - rewrite length_app. lia.
  - by apply least_unused_NoDup.
Qed.

Lemma growth_mints_least_unused_witness :
  ∃ t' newIDS,
    pushData reversing_solver two_slots [12; 2; 30; 40]%Z [12; 2; 30; 40]%Z
      = Done t' ∧
    tracking t' (length [12; 2; 30; 40]%Z) ∧
    m_vecIDs t' = m_vecIDs two_slots ++ newIDS ∧
    length newIDS = length [12; 2; 30; 40]%Z - 2 ∧
    (∀ i x, newIDS !! i = Some x →
       least_unused (m_vecIDs two_slots ++ take i newIDS) x) ∧
    length (m_vecIDs t') = length [12; 2; 30; 40]%Z ∧ NoDup (m_vecIDs t').
Proof.
  apply (growth_mints_least_unused reversing_solver two_slots 2
           [12; 2; 30; 40]%Z [12; 2; 30; 40]%Z).
  - exact reversing_solver_contract.
  - exact tracking_two.
  - exact two_slots_ids_NoDup.
  - simpl. lia.
  - reflexivity.
Defined.

(** C10.  In the growth path, with k = D_new - D_old and dim = D_new: when
    the solved assignment is a permutation of 0..dim-1, exactly k of its
    entries are at least dim-k, so the loop over the columns collects exactly
    k values per axis, the WARNING about a size mismatch is not printed, and
    the backfill loop reads the collected values and writes the history
    frames inside their bounds (it returns). *)
Theorem growth_backfill_in_bounds (dim k : nat) (assignment newX newY : list Z)
    (dataX dataY : list (list Z)) (newIDS ids good : list Z) :
  is_assignment dim assignment → 0 < k ≤ dim →
  length newX = dim → length newY = dim →
  frames dataX dim → frames dataY dim → length newIDS = k →
  length (filter (λ a, Z.of_nat dim - Z.of_nat k ≤ a)%Z assignment) = k ∧
  ∃ cX cY,
    newDataColsValues dim (Z.of_nat k) assignment newX newY = Ok (cX, cY) ∧
    length cX = k ∧ length cY = k ∧
    size_mismatch_warning cX (Z.of_nat k) = false ∧
    ∃ dataX' dataY',
      backfill dim (Z.of_nat k) cX cY newIDS dataX dataY ids good
        = Ok (dataX', dataY', ids ++ newIDS, good ++ replicate k 0%Z) ∧
      frames dataX' dim ∧ frames dataY' dim.
Proof.
  intros Hasg [Hk0 Hk] HX HY HdX HdY Lnew.
  split; [by apply assignment_count |].
  destruct (newDataColsValues_spec dim k assignment newX newY Hasg)
    as (cX & cY & Hcols & LcX & LcY); [lia.. |].
  exists cX, cY. split_and!; [done.. | |].
  - unfold size_mismatch_warning. rewrite bool_decide_eq_false_2; [done | lia].
  - destruct (backfill_spec dim k cX cY newIDS dataX dataY ids good)
      as (dX' & dY' & Hback & HX' & HY'); [done | done | lia.. |].
    rewrite take_ge in Hback by lia. by exists dX', dY'.
Qed.

Lemma growth_backfill_in_bounds_witness :
  length (filter (λ a, Z.of_nat 4 - Z.of_nat 2 ≤ a)%Z [3; 2; 1; 0]%Z) = 2 ∧
  ∃ cX cY,
    newDataColsValues 4 (Z.of_nat 2) [3; 2; 1; 0]%Z [12; 2; 30; 40]%Z
      [12; 2; 30; 40]%Z = Ok (cX, cY) ∧
    length cX = 2 ∧ length cY = 2 ∧
    size_mismatch_warning cX (Z.of_nat 2) = false ∧
    ∃ dataX' dataY',
      backfill 4 (Z.of_nat 2) cX cY [2; 3]%Z two_slots_padded two_slots_padded
        [0; 1]%Z [2; 2]%Z
        = Ok (dataX', dataY', [0; 1]%Z ++ [2; 3]%Z, [2; 2]%Z ++ replicate 2 0%Z) ∧
      frames dataX' 4 ∧ frames dataY' 4.
Proof.
  apply (growth_backfill_in_bounds 4 2 [3; 2; 1; 0]%Z [12; 2; 30; 40]%Z
           [12; 2; 30; 40]%Z two_slots_padded two_slots_padded
           [2; 3]%Z [0; 1]%Z [2; 2]%Z).
  - unfold is_assignment. simpl.
    change [3; 2; 1; 0]%Z with (reverse [0; 1; 2; 3]%Z).
    apply reverse_Permutation.
  - lia.
  - reflexivity.
  - reflexivity.
  - unfold frames, two_slots_padded. simpl. split; [lia | by repeat constructor].
  - unfold frames, two_slots_padded. simpl. split; [lia | by repeat constructor].
  - reflexivity.
Defined.

(** * Further properties of the code *)

(** ** removeElemsFromVector on arbitrary rows *)

Lemma removeElems_loop_sublist {A} (v : list A) :
  ∀ vidx rows, removeElems_loop v vidx rows `sublist_of` v.
Proof.
  induction v as [|x v IH]; intros vidx rows; simpl; [done |].
  destruct rows as [|r rows]; [done |].
  case_decide; [by apply sublist_skip | by apply sublist_cons].
Qed.

Lemma removeElems_loop_length {A} (v : list A) :
  ∀ vidx rows, length v - length rows ≤ length (removeElems_loop v vidx rows).
Proof.
  induction v as [|x v IH]; intros vidx rows; simpl; [lia |].
  destruct rows as [|r rows]; [simpl; lia |].
  case_decide; simpl.
  - specialize (IH (vidx + 1)%Z (r :: rows)). simpl in IH. lia.
  - specialize (IH (vidx + 1)%Z rows). lia.
Qed.

(** X1.  Whatever the row list is (sorted or not, in range or not),
    removeElemsFromVector only drops elements: what it returns is a
    subsequence of the vector, in the original order, and it drops at most
    one element per row index. *)
Theorem removeElemsFromVector_only_drops {A} (v : list A) (rows : list Z) :
  removeElemsFromVector v rows `sublist_of` v ∧
  length v - length rows ≤ length (removeElemsFromVector v rows).
Proof.
  split; [apply removeElems_loop_sublist | apply removeElems_loop_length].
Qed.

Lemma removeElems_loop_blocked {A} (v : list A) :
  ∀ vidx r rows,
    (r < vidx ∨ vidx + Z.of_nat (length v) ≤ r)%Z →
    removeElems_loop v vidx (r :: rows) = v.
Proof.
  induction v as [|x v IH]; intros vidx r rows Hr; simpl; [done |].
  simpl in Hr. rewrite decide_True by lia. f_equal. apply IH. lia.
Qed.

(** X2.  The scan compares every index with the head of the row list only:
    a head that names no element (negative, or past the end) is never
    consumed, so no element is removed, whatever rows follow it. *)
Theorem removeElemsFromVector_blocked_by_head {A} (v : list A) (r : Z)
    (rows : list Z) :
  (r < 0 ∨ Z.of_nat (length v) ≤ r)%Z →
  removeElemsFromVector v (r :: rows) = v.
Proof. intros Hr. apply removeElems_loop_blocked. lia. Qed.

Lemma removeElemsFromVector_blocked_by_head_witness :
  removeElemsFromVector [10; 20; 30]%Z [-1; 0; 1]%Z = [10; 20; 30]%Z.
Proof.
  apply (removeElemsFromVector_blocked_by_head [10; 20; 30]%Z (-1) [0; 1]%Z).
  left. lia.
Defined.

Lemma removeElems_loop_single {A} (v : list A) :
  ∀ vidx r,
    (vidx ≤ r)%Z →
    removeElems_loop v vidx [r] = delete (Z.to_nat (r - vidx)) v.
Proof.
  induction v as [|x v IH]; intros vidx r Hr; simpl; [done |].
  case_decide as Hne.
  - rewrite IH by lia.
    replace (Z.to_nat (r - vidx)) with (S (Z.to_nat (r - (vidx + 1)))) by lia.
    done.
  - assert (r = vidx) as -> by (destruct (decide (r = vidx)); [done | tauto]).
    rewrite Z.sub_diag. simpl. by destruct v.
Qed.

Lemma removeElems_loop_passed {A} (v : list A) :
  ∀ vidx r1 r2 rows,
    (r2 < vidx ≤ r1)%Z →
    removeElems_loop v vidx (r1 :: r2 :: rows)
      = delete (Z.to_nat (r1 - vidx)) v.
Proof.
  induction v as [|x v IH]; intros vidx r1 r2 rows Hr; simpl; [done |].
  case_decide as Hne.
  - rewrite IH by lia.
    replace (Z.to_nat (r1 - vidx)) with (S (Z.to_nat (r1 - (vidx + 1)))) by lia.
    done.
  - assert (r1 = vidx) as -> by (destruct (decide (r1 = vidx)); [done | tauto]).
    rewrite Z.sub_diag. simpl. apply removeElems_loop_blocked. lia.
Qed.

Lemma removeElems_loop_unsorted {A} (v : list A) :
  ∀ vidx r1 r2 rows,
    (vidx ≤ r2 ≤ r1)%Z →
    removeElems_loop v vidx (r1 :: r2 :: rows)
      = delete (Z.to_nat (r1 - vidx)) v.
Proof.
  induction v as [|x v IH]; intros vidx r1 r2 rows Hr; simpl; [done |].
  case_decide as Hne.
  - replace (Z.to_nat (r1 - vidx)) with (S (Z.to_nat (r1 - (vidx + 1)))) by lia.
    simpl. f_equal.
    destruct (decide (r2 = vidx)) as [-> | Hr2].
    + apply removeElems_loop_passed. lia.
    + apply IH. lia.
  - assert (r1 = vidx) as -> by (destruct (decide (r1 = vidx)); [done | tauto]).
    rewrite Z.sub_diag. simpl. apply removeElems_loop_blocked. lia.
Qed.

(** X3.  The rows must be sorted: when a row index is followed by one that
    is not larger, the first is deleted and the scan then waits for the
    second, which it has already passed; that row and all the rows after it
    stay in the vector. *)
Theorem removeElemsFromVector_unsorted {A} (v : list A) (r1 r2 : Z)
    (rows : list Z) :
  (0 ≤ r2 ≤ r1)%Z →
  removeElemsFromVector v (r1 :: r2 :: rows) = delete (Z.to_nat r1) v.
Proof.
  intros Hr. unfold removeElemsFromVector.
  rewrite removeElems_loop_unsorted by lia. by rewrite Z.sub_0_r.
Qed.

Lemma removeElemsFromVector_unsorted_witness :
  removeElemsFromVector [10; 20; 30; 40]%Z [2; 0; 3]%Z
    = delete (Z.to_nat 2) [10; 20; 30; 40]%Z.
Proof.
  apply (removeElemsFromVector_unsorted [10; 20; 30; 40]%Z 2 0 [3]%Z). lia.
Defined.

(** ** removeElemsFromVector on sorted rows *)

Lemma delete_rows_lookup_below {A} (v : list A) rows (p : nat) :
  Forall (λ r, Z.of_nat p < r)%Z rows → delete_rows rows v !! p = v !! p.
Proof.
  induction 1 as [|r rows Hr _ IH]; simpl in *; [done |].
  fold (delete_rows rows v). rewrite list_lookup_delete_lt by lia. done.
Qed.

Lemma delete_rows_Permutation `{Inhabited A} (v : list A) rows :
  StronglySorted Z.lt rows →
  Forall (λ r, 0 ≤ r < Z.of_nat (length v))%Z rows →
  v ≡ₚ delete_rows rows v ++ ((λ r, v !!! Z.to_nat r) <$> rows).
Proof.
  induction rows as [|r rows IH]; intros Hs Hb; simpl.
  - by rewrite app_nil_r.
  - apply StronglySorted_inv in Hs as [Hs Hlt].
    apply Forall_cons in Hb as [Hr Hb]. fold (delete_rows rows v).
    assert (delete_rows rows v !! Z.to_nat r = Some (v !!! Z.to_nat r)) as Hlk.
    { rewrite delete_rows_lookup_below.
      - apply list_lookup_lookup_total_lt. lia.
      - eapply Forall_impl; [exact Hlt |]. simpl. lia. }
    rewrite <- Permutation_middle, app_comm_cons.
    rewrite <- (delete_Permutation _ _ _ Hlk). by apply IH.
Qed.

(** X4.  On a strictly ascending list of row indices that all name elements,
    removeElemsFromVector removes exactly the named elements: the vector
    gets shorter by the number of rows, and the original vector is, up to
    order, what is left together with the elements at the named rows. *)
Theorem removeElemsFromVector_sorted (v : list Z) (rows : list Z) :
  StronglySorted Z.lt rows →
  Forall (λ r, 0 ≤ r < Z.of_nat (length v))%Z rows →
  length (removeElemsFromVector v rows) = length v - length rows ∧
  v ≡ₚ removeElemsFromVector v rows ++ ((λ r, v !!! Z.to_nat r) <$> rows).
Proof.
  intros Hs Hb.
  rewrite removeElemsFromVector_spec;
    [| done | eapply Forall_impl; [exact Hb |]; simpl; lia].
  split; [by apply delete_rows_length | by apply delete_rows_Permutation].
Qed.

Lemma removeElemsFromVector_sorted_witness :
  length (removeElemsFromVector [10; 20; 30; 40]%Z [1; 3]%Z)
    = length [10; 20; 30; 40]%Z - length [1; 3]%Z ∧
  [10; 20; 30; 40]%Z ≡ₚ
    removeElemsFromVector [10; 20; 30; 40]%Z [1; 3]%Z
      ++ ((λ r, [10; 20; 30; 40]%Z !!! Z.to_nat r) <$> [1; 3]%Z).
Proof.
  apply (removeElemsFromVector_sorted [10; 20; 30; 40]%Z [1; 3]%Z).
  - repeat constructor; lia.
  - repeat constructor; simpl; lia.
Defined.

(** ** pushData from an interleaved array *)

Lemma for_each_fail {St} (I : nat → St → Prop) (body : nat → St → result St)
    (e : error) n :
  ∀ a s m,
    I a s → a ≤ m < a + n →
    (∀ i s, a ≤ i < m → I i s → ∃ s', body i s = Ok s' ∧ I (S i) s') →
    (∀ s, I m s → body m s = Err e) →
    for_each (seq a n) body s = Err e.
Proof.
  induction n as [|n IH]; intros a s m Ha Hm Hstep Hfail; [lia |]. simpl.
  destruct (decide (a = m)) as [-> | Hne].
  - by rewrite Hfail.
  - destruct (Hstep a s) as (s1 & -> & H1); [lia | done |]. simpl.
    apply (IH (S a) s1 m); [done | lia | | done].
    intros i s0 Hi. apply Hstep. lia.
Qed.

Lemma interleave_cons x y xs ys :
  interleave (x :: xs) (y :: ys) = x :: y :: interleave xs ys.
Proof. done. Qed.

Lemma interleave_lookup xs :
  ∀ ys rest i, length ys = length xs → i < length xs →
    (interleave xs ys ++ rest) !! (2 * i) = xs !! i ∧
    (interleave xs ys ++ rest) !! (2 * i + 1) = ys !! i.
Proof.
  induction xs as [|x xs IH]; intros [|y ys] rest i Hlen Hi;
    simpl in Hlen, Hi; try lia.
  rewrite interleave_cons, <- !app_comm_cons. destruct i as [|i]; [done |].
  replace (2 * S i) with (S (S (2 * i))) by lia.
  replace (S (S (2 * i)) + 1) with (S (S (2 * i + 1))) by lia.
  cbn [lookup list_lookup]. apply IH; lia.
Qed.

Lemma deinterleave_interleave xs ys rest :
  length ys = length xs →
  deinterleave (interleave xs ys ++ rest) (length xs) = Ok (xs, ys).
Proof.
  intros Hlen. unfold deinterleave.
  set (n := length xs).
  set (I := λ (m : nat) (s : list Z * list Z),
    length s.1 = n ∧ length s.2 = n ∧
    ∀ i, i < m → s.1 !! i = xs !! i ∧ s.2 !! i = ys !! i).
  match goal with |- context [for_range ?k ?b ?s] =>
    destruct (for_range_inv I b k s) as ([x y] & -> & Hx & Hy & Hv) end.
  - unfold I. simpl. rewrite !length_replicate. split_and!; [done.. | lia].
  - intros i [x y] Hi (Hx & Hy & Hv). cbn [fst snd] in *. lazy beta iota.
    destruct (interleave_lookup xs ys rest i Hlen Hi) as [Ea Eb].
    destruct (lookup_lt_is_Some_2 xs i Hi) as [a Ha].
    destruct (lookup_lt_is_Some_2 ys i) as [b Hb]; [lia |].
    rewrite Ha in Ea. rewrite Hb in Eb.
    rewrite (vec_at_Ok _ _ _ Ea). cbn [mbind result_bind].
    rewrite vec_set_Ok by lia. cbn [mbind result_bind].
    rewrite (vec_at_Ok _ _ _ Eb). cbn [mbind result_bind].
    rewrite vec_set_Ok by (rewrite ?length_insert; lia). cbn [mbind result_bind].
    eexists. split; [done |]. unfold I. cbn [fst snd]. rewrite !length_insert.
    split_and!; [done.. |]. intros i' Hi'.
    destruct (decide (i' = i)) as [-> | Hne].
    + rewrite !list_lookup_insert_eq by lia. by rewrite Ha, Hb.
    + rewrite !list_lookup_insert_ne by done. apply Hv. lia.
  - simpl in *. f_equal. f_equal.
    + apply list_eq. intros i. destruct (decide (i < n)) as [Hi | Hi].
      * by apply Hv.
      * rewrite !lookup_ge_None_2; [done | unfold n in *; lia | lia].
    + apply list_eq. intros i. destruct (decide (i < n)) as [Hi | Hi].
      * by apply Hv.
      * rewrite !lookup_ge_None_2; [done | unfold n in *; lia | lia].
Qed.

(** X5.  The overload that takes an interleaved array x0, y0, x1, y1, ...
    and a point count n behaves as pushData on the two coordinate vectors:
    it reads the first 2n entries, entries after them are ignored. *)
Theorem pushData_xys_interleaved solve t (xs ys rest : list Z) :
  length ys = length xs →
  pushData_xys solve t (interleave xs ys ++ rest) (length xs)
    = pushData solve t xs ys.
Proof.
  intros Hlen. unfold pushData_xys. by rewrite deinterleave_interleave.
Qed.

Lemma pushData_xys_interleaved_witness :
  pushData_xys reversing_solver two_slots
      (interleave [12; 2]%Z [13; 3]%Z ++ [77]%Z) (length [12; 2]%Z)
    = pushData reversing_solver two_slots [12; 2]%Z [13; 3]%Z.
Proof.
  apply (pushData_xys_interleaved reversing_solver two_slots
           [12; 2]%Z [13; 3]%Z [77]%Z).
  reflexivity.
Defined.

(** X6.  Edge cases of the array overload.  With n = 0 no entry is read and
    the call ends in the InvalidArgument return of pushData, the tracker
    unchanged; with an array of fewer than 2n entries the copy loop reads
    past the end of the array and the tracker is never reached. *)
Theorem pushData_xys_edges solve t (xys : list Z) (n : nat) :
  (n = 0 → pushData_xys solve t xys n = Returned InvalidArgument t) ∧
  (length xys < 2 * n → pushData_xys solve t xys n = Aborted OutOfRange).
Proof.
  split.
  - intros ->. done.
  - intros Hshort. unfold pushData_xys, deinterleave, for_range.
    set (I := λ (_ : nat) (s : list Z * list Z), length s.1 = n ∧ length s.2 = n).
    match goal with |- context [for_each _ ?b ?s] =>
      rewrite (for_each_fail I b OutOfRange n 0 s (length xys / 2)) end; try done.
    + unfold I. simpl. by rewrite !length_replicate.
    + pose proof (Nat.div_mod_eq (length xys) 2).
      pose proof (Nat.mod_upper_bound (length xys) 2). lia.
    + intros i [x y] Hi [Hx Hy]. cbn [fst snd] in *. lazy beta iota.
      assert (2 * i + 1 < length xys) as Hlt.
      { pose proof (Nat.div_mod_eq (length xys) 2).
        pose proof (Nat.mod_upper_bound (length xys) 2). lia. }
      destruct (vec_at_lt xys (2 * i)) as (a & _ & ->); [lia |].
      cbn [mbind result_bind]. assert (i < n) by lia.
      rewrite vec_set_Ok by lia. cbn [mbind result_bind].
      destruct (vec_at_lt xys (2 * i + 1)) as (b & _ & ->); [lia |].
      cbn [mbind result_bind].
      rewrite vec_set_Ok by lia. cbn [mbind result_bind].
      eexists. split; [done |]. unfold I. cbn [fst snd].
      by rewrite !length_insert.
    + intros [x y] [Hx Hy]. cbn [fst snd] in *. lazy beta iota.
      pose proof (Nat.div_mod_eq (length xys) 2) as Hdm.
      pose proof (Nat.mod_upper_bound (length xys) 2) as Hmod.
      set (m := length xys / 2) in *.
      destruct (decide (length xys `mod` 2 = 0)) as [Heven | Hodd].
      * assert (vec_at xys (2 * m) = Err OutOfRange) as ->; [| done].
        unfold vec_at. by rewrite lookup_ge_None_2 by lia.
      * destruct (vec_at_lt xys (2 * m)) as (a & _ & ->); [lia |].
        cbn [mbind result_bind].
        rewrite vec_set_Ok by lia. cbn [mbind result_bind].
        assert (vec_at xys (2 * m + 1) = Err OutOfRange) as ->; [| done].
        unfold vec_at. by rewrite lookup_ge_None_2 by lia.
Qed.

Lemma pushData_xys_edges_witness :
  pushData_xys identity_solver two_slots [1; 2; 3]%Z 0
    = Returned InvalidArgument two_slots ∧
  pushData_xys identity_solver two_slots [1; 2; 3]%Z 2 = Aborted OutOfRange.
Proof.
  split.
  - apply (pushData_xys_edges identity_solver two_slots [1; 2; 3]%Z 0).
    reflexivity.
  - apply (pushData_xys_edges identity_solver two_slots [1; 2; 3]%Z 2).
    simpl. lia.
Defined.

(** ** createDistMat *)




(** X8.  Swapping the roles of the two point sets transposes the matrix:
    the entry for (observed i, predicted j) is the entry the swapped call
    has for (observed j, predicted i). *)
Theorem createDistMat_transpose (pX pY oX oY : list Z) :
  length pY = length pX → length oY = length oX → length pX = length oX →
  ∃ m m', createDistMat pX pY oX oY = Ok m ∧
    createDistMat oX oY pX pY = Ok m' ∧
    ∀ i j, i < length pX → j < length pX → entry m i j = entry m' j i.
Proof.
  intros HpY HoY Hlen.
  destruct (createDistMat_total pX pY oX oY) as (m & Hm & _ & _ & Hent);
    [done.. |].
  destruct (createDistMat_total oX oY pX pY) as (m' & Hm' & _ & _ & Hent');
    [done.. |].
  exists m, m'. split_and!; [done.. |]. intros i j Hi Hj.
  destruct (lookup_lt_is_Some_2 pX j) as [px Hpx]; [lia |].
  destruct (lookup_lt_is_Some_2 pY j) as [py Hpy]; [lia |].
  destruct (lookup_lt_is_Some_2 oX i) as [ox Hox]; [lia |].
  destruct (lookup_lt_is_Some_2 oY i) as [oy Hoy]; [lia |].
  rewrite (Hent i j px py ox oy), (Hent' j i ox oy px py) by done.
  unfold dist_entry. do 2 f_equal. lia.
Qed.

Lemma createDistMat_transpose_witness :
  ∃ m m', createDistMat [0; 3]%Z [0; 4]%Z [3; 0]%Z [4; 1]%Z = Ok m ∧
    createDistMat [3; 0]%Z [4; 1]%Z [0; 3]%Z [0; 4]%Z = Ok m' ∧
    ∀ i j, i < length [0; 3]%Z → j < length [0; 3]%Z →
      entry m i j = entry m' j i.
Proof.
  apply (createDistMat_transpose [0; 3]%Z [0; 4]%Z [3; 0]%Z [4; 1]%Z);
    reflexivity.
Defined.

Lemma collect_err_uniform {B} (f : nat → result B) (e : error) l :
  (∀ i e', i ∈ l → f i = Err e' → e' = e) →
  ∀ e', collect f l = Err e' → e' = e.
Proof.
  induction l as [|i l IH]; intros Hf e'; simpl; [done |].
  destruct (f i) as [y|e0] eqn:Ei; simpl.
  - destruct (collect f l) as [ys|e1] eqn:El; simpl; [done |].
    intros [= <-]. apply IH; [| done]. intros j e2 Hj. apply Hf. by right.
  - intros [= <-]. apply (Hf i); [left | done].
Qed.

Lemma collect_fail {B} (f : nat → result B) (e : error) l i :
  (∀ j e', j ∈ l → f j = Err e' → e' = e) →
  i ∈ l → (∃ e', f i = Err e') →
  collect f l = Err e.
Proof.
  intros Hf Hi [e' Hfail].
  destruct (collect f l) as [ys|e1] eqn:El.
  - apply collect_Ok_inv in El.
    apply list_elem_of_lookup in Hi as [p Hp].
    destruct (Forall2_lookup_l _ _ _ p i El Hp) as (y & _ & Hy). congruence.
  - f_equal. by apply (collect_err_uniform f e l Hf).
Qed.

(** X9.  createDistMat asserts the equality of the X sequences only.  When
    they agree (and are not empty) but a Y sequence is shorter, the
    assertion passes and the loop reads that Y sequence past its end. *)
Theorem createDistMat_short_Y (pX pY oX oY : list Z) :
  length pX = length oX → 0 < length pX →
  length pY < length pX ∨ length oY < length oX →
  createDistMat pX pY oX oY = Err OutOfRange.
Proof.
  intros Hlen Hpos Hshort. unfold createDistMat, ICLASSERT.
  rewrite decide_True by done. cbn [mbind result_bind].
  set (cell := λ (i j : nat),
    ax ← vec_at pX j; bx ← vec_at oX i;
    ay ← vec_at pY j; by_ ← vec_at oY i;
    Ok (dist_entry ax ay bx by_)).
  assert (∀ i j e', cell i j = Err e' → e' = OutOfRange) as Hcell.
  { intros i j e'. unfold cell, vec_at.
    repeat (case_match; simpl; try done); congruence. }
  assert (∀ i e', collect (cell i) (seq 0 (length pX)) = Err e' →
            e' = OutOfRange) as Hrow.
  { intros i e'. apply collect_err_uniform. intros j e2 _. apply Hcell. }
  change (collect (λ i, collect (cell i) (seq 0 (length pX)))
            (seq 0 (length pX)) = Err OutOfRange).
  assert (∃ i j, i < length pX ∧ j < length pX ∧ ∃ e', cell i j = Err e')
    as (i & j & Hi & Hj & Hfail).
  { destruct Hshort as [HpY | HoY].
    - exists 0, (length pY). split_and!; [lia.. |].
      unfold cell. destruct (vec_at_lt pX (length pY)) as (ax & _ & ->); [lia |].
      destruct (vec_at_lt oX 0) as (bx & _ & ->); [lia |]. simpl.
      assert (vec_at pY (length pY) = Err OutOfRange) as ->; [| simpl; eauto].
      unfold vec_at. by rewrite lookup_ge_None_2.
    - exists (length oY), 0. split_and!; [lia.. |].
      unfold cell. destruct (vec_at_lt pX 0) as (ax & _ & ->); [lia |].
      destruct (vec_at_lt oX (length oY)) as (bx & _ & ->); [lia |]. simpl.
      destruct (vec_at pY 0) as [ay|e1] eqn:Ey; simpl; [| eauto].
      assert (vec_at oY (length oY) = Err OutOfRange) as ->; [| simpl; eauto].
      unfold vec_at. by rewrite lookup_ge_None_2. }
  apply (collect_fail _ _ _ i).
  - intros i' e' _. apply Hrow.
  - apply elem_of_seq. lia.
  - destruct (collect (cell i) (seq 0 (length pX))) as [r|e1] eqn:Er; [| eauto].
    exfalso. apply collect_range in Er as [_ Hcols].
    destruct (Hcols j Hj) as (d & _ & Hd). destruct Hfail as [e' He']. congruence.
Qed.

Lemma createDistMat_short_Y_witness :
  createDistMat [0; 3]%Z [0]%Z [3; 0]%Z [4; 1]%Z = Err OutOfRange.
Proof.
  apply (createDistMat_short_Y [0; 3]%Z [0]%Z [3; 0]%Z [4; 1]%Z).
  - reflexivity.
  - simpl. lia.
  - left. simpl. lia.
Defined.

(** ** predict *)

(** X10.  While every freshness counter is 1 (as after the first tick)
    predict returns the newest history frame itself: nothing is
    extrapolated from the two older frames. *)
Theorem predict_all_fresh (d : list (list Z)) (N dim : nat) (good f2 : list Z) :
  frames d N → dim ≤ N → dim ≤ length good →
  (∀ y, y < dim → good !! y = Some 1%Z) → d !! 2 = Some f2 →
  predict dim d good = Ok (take dim f2).
Proof.
  intros Hd Hdim Hgood Hone Hf2.
  destruct (predict_total d N good dim Hd Hdim Hgood) as (p & Hp & Lp).
  rewrite Hp. f_equal. apply collect_range in Hp as [_ Hslots].
  destruct Hd as [_ HF]. pose proof (Forall_lookup_1 _ _ _ _ HF Hf2) as Lf2.
  apply list_eq. intros y. destruct (decide (y < dim)) as [Hy | Hy].
  - destruct (Hslots y Hy) as (v & -> & Hv). rewrite lookup_take_lt by done.
    unfold predict_slot in Hv. rewrite (vec_at_Ok _ _ _ (Hone y Hy)) in Hv.
    cbn [mbind result_bind] in Hv. rewrite decide_True in Hv by done.
    rewrite (vec_at_Ok _ _ _ Hf2) in Hv. cbn [mbind result_bind] in Hv.
    by apply vec_at_Ok_inv in Hv.
  - rewrite !lookup_ge_None_2; [done | rewrite length_take; lia | lia].
Qed.

Lemma predict_all_fresh_witness :
  predict 2 [[0; 10]; [0; 10]; [0; 10]]%Z [1; 1]%Z = Ok (take 2 [0; 10]%Z).
Proof.
  apply (predict_all_fresh [[0; 10]; [0; 10]; [0; 10]]%Z 2 2 [1; 1]%Z [0; 10]%Z).
  - by apply frames_intro.
  - lia.
  - simpl. lia.
  - intros [|[|y]] Hy; [reflexivity | reflexivity | lia].
  - reflexivity.
Defined.

(** X11.  predict trusts its caller for the length of the freshness vector:
    asked for more slots than there are counters, it reads the counters
    past their end (the case the commented-out warning of the source
    watches for). *)
Theorem predict_short_good (dim : nat) (d : list (list Z)) (good : list Z) :
  length good < dim → predict dim d good = Err OutOfRange.
Proof.
  intros Hshort. unfold predict. apply (collect_fail _ _ _ (length good)).
  - intros y e' _. unfold predict_slot, vec_at.
    repeat (case_match; simpl; try done); congruence.
  - apply elem_of_seq. lia.
  - unfold predict_slot.
    assert (vec_at good (length good) = Err OutOfRange) as ->; [| simpl; eauto].
    unfold vec_at. by rewrite lookup_ge_None_2.
Qed.

Lemma predict_short_good_witness :
  predict 3 [[0; 10; 20]; [0; 10; 20]; [0; 10; 20]]%Z [1; 1]%Z = Err OutOfRange.
Proof.
  apply (predict_short_good 3 [[0; 10; 20]; [0; 10; 20]; [0; 10; 20]]%Z [1; 1]%Z).
  simpl. lia.
Defined.

(** ** get_n_new_ids *)

Lemma least_unused_bound used x :
  least_unused used x → Z.to_nat x ≤ length used.
Proof.
  intros (Hx & _ & Hbelow).
  assert (seqZ 0 x ⊆+ used) as Hsub.
  { apply NoDup_submseteq; [apply NoDup_seqZ |].
    intros z Hz%elem_of_seqZ. apply Hbelow. lia. }
  apply submseteq_length in Hsub. by rewrite length_seqZ in Hsub.
Qed.

Lemma least_unused_unique used x y :
  least_unused used x → least_unused used y → x = y.
Proof.
  intros (Hx & Hnx & Hbx) (Hy & Hny & Hby).
  destruct (Z.lt_trichotomy x y) as [Hlt | [-> | Hgt]]; [| done |].
  - exfalso. apply Hnx, Hby. lia.
  - exfalso. apply Hny, Hbx. lia.
Qed.

Lemma minted_increasing ids new :
  (∀ i x, new !! i = Some x → least_unused (ids ++ take i new) x) →
  ∀ i j a b, i < j → new !! i = Some a → new !! j = Some b → (a < b)%Z.
Proof.
  intros Hnew i j a b Hij Ha Hb.
  destruct (Hnew i a Ha) as (_ & _ & Hbelow).
  destruct (Hnew j b Hb) as (Hb0 & Hnot & _).
  assert (a ∈ ids ++ take j new) as Hain.
  { apply elem_of_app. right. apply elem_of_take. by exists i. }
  destruct (Z.lt_trichotomy a b) as [? | [-> | Hgt]]; [done | done |].
  exfalso. apply Hnot.
  assert (b ∈ ids ++ take i new) as Hin by (apply Hbelow; lia).
  apply elem_of_app in Hin as [Hin | Hin].
  - apply elem_of_app. by left.
  - apply elem_of_app. right. apply elem_of_take in Hin as (p & Hp & Hpi).
    apply elem_of_take. exists p. split; [done | lia].
Qed.

Lemma pairwise_StronglySorted (l : list Z) :
  (∀ i j a b, i < j → l !! i = Some a → l !! j = Some b → (a < b)%Z) →
  StronglySorted Z.lt l.
Proof.
  induction l as [|x l IH]; intros Hpair; constructor.
  - apply IH. intros i j a b Hij Ha Hb. apply (Hpair (S i) (S j)); [lia | done..].
  - apply Forall_lookup. intros j b Hb. apply (Hpair 0 (S j)); [lia | done..].
Qed.

(** X12.  For every current identity vector and every count n,
    get_n_new_ids returns (its search loop ends) max(n,0) identities in
    strictly increasing order; each is non-negative, is not a current
    identity, and is smaller than the number of current identities plus the
    number of identities asked for. *)
Theorem get_n_new_ids_increasing (currentIDS : list Z) (n : Z) :
  ∃ new, get_n_new_ids currentIDS n = Ok new ∧
    length new = Z.to_nat n ∧ StronglySorted Z.lt new ∧
    Forall (λ x, (0 ≤ x < Z.of_nat (length currentIDS + Z.to_nat n))%Z ∧
                 x ∉ currentIDS) new.
Proof.
  destruct (get_n_new_ids_spec currentIDS (Z.to_nat n)) as (new & Hrun & Hlen & Hleast).
  exists new. split_and!.
  - unfold get_n_new_ids in *. by rewrite Nat2Z.id in Hrun.
  - done.
  - apply pairwise_StronglySorted. by apply (minted_increasing currentIDS).
  - apply Forall_lookup. intros i x Hx.
    pose proof (Hleast i x Hx) as Hl. pose proof (least_unused_bound _ _ Hl) as Hb.
    destruct Hl as (Hx0 & Hnot & _).
    apply lookup_lt_Some in Hx as Hi.
    rewrite length_app, length_take in Hb. split; [lia |].
    intros Hin. apply Hnot, elem_of_app. by left.
Qed.

(** X13.  When the current identities are 0..m-1 (in particular when there
    are none), the n new identities are m..m+n-1. *)
Theorem get_n_new_ids_consecutive (m n : nat) :
  get_n_new_ids (Z.of_nat <$> seq 0 m) (Z.of_nat n)
    = Ok (Z.of_nat <$> seq m n).
Proof.
  destruct (get_n_new_ids_spec (Z.of_nat <$> seq 0 m) n) as (new & -> & Hlen & Hleast).
  f_equal.
  assert (∀ i, i ≤ n → take i new = Z.of_nat <$> seq m i) as Htake.
  { induction i as [|i IH]; intros Hi; [done |].
    destruct (lookup_lt_is_Some_2 new i) as [x Hx]; [lia |].
    rewrite (take_S_r _ _ _ Hx), seq_S, fmap_app, IH by lia. simpl.
    do 2 f_equal. apply (least_unused_unique _ _ _ (Hleast i x Hx)).
    rewrite IH by lia. rewrite <- fmap_app, <- seq_app.
    split_and!; [lia | |].
    - intros (k & Hk & [_ Hlt]%elem_of_seq)%list_elem_of_fmap. lia.
    - intros z Hz. apply list_elem_of_fmap. exists (Z.to_nat z).
      split; [lia |]. apply elem_of_seq. lia. }
  rewrite <- (Htake n) by lia. by rewrite take_ge by lia.
Qed.

(** ** push_and_rearrange_data on an assignment that is no permutation *)

(** X14.  push_and_rearrange_data needs only that the first dim entries of
    the assignment name slots: then it returns, a slot that no observation
    is assigned to holds 0 in the new frame (the frame is value-initialised),
    and where several observations are assigned to one slot the last of them
    is the one stored. *)
Theorem push_and_rearrange_any_assignment (dim : nat) (dX dY : list (list Z))
    (asg newX newY : list Z) :
  dim ≤ length asg → dim ≤ length newX → dim ≤ length newY →
  (∀ i a, i < dim → asg !! i = Some a → (0 ≤ a < Z.of_nat dim)%Z) →
  ∃ aX aY,
    push_and_rearrange_data dim dX dY asg newX newY
      = Ok (tail (dX ++ [aX]), tail (dY ++ [aY])) ∧
    length aX = dim ∧ length aY = dim ∧
    (∀ s, s < dim → (∀ i, i < dim → asg !! i ≠ Some (Z.of_nat s)) →
       aX !! s = Some 0%Z ∧ aY !! s = Some 0%Z) ∧
    (∀ i a, i < dim → asg !! i = Some a →
       (∀ j, i < j < dim → asg !! j ≠ Some a) →
       aX !! Z.to_nat a = newX !! i ∧ aY !! Z.to_nat a = newY !! i).
Proof.
  intros Hasg HX HY Hrange. unfold push_and_rearrange_data.
  set (I := λ (m : nat) (s : list Z * list Z),
    length s.1 = dim ∧ length s.2 = dim ∧
    (∀ p, p < dim → (∀ i, i < m → asg !! i ≠ Some (Z.of_nat p)) →
       s.1 !! p = Some 0%Z ∧ s.2 !! p = Some 0%Z) ∧
    (∀ i a, i < m → asg !! i = Some a →
       (∀ j, i < j < m → asg !! j ≠ Some a) →
       s.1 !! Z.to_nat a = newX !! i ∧ s.2 !! Z.to_nat a = newY !! i)).
  match goal with |- context [for_range ?n ?b ?s] =>
    destruct (for_range_inv I b n s)
      as ([aX aY] & -> & HaX & HaY & Hzero & Hlast) end.
  - unfold I. simpl. rewrite !length_replicate. split_and!; [done.. | | lia].
    intros p Hp _. by rewrite !lookup_replicate_2.
  - intros i [aX aY] Hi (HaX & HaY & Hzero & Hlast). simpl in *.
    destruct (vec_at_lt asg i) as (a & Ha & ->); [lia |].
    destruct (vec_at_lt newX i) as (x & Hx & ->); [lia |].
    destruct (vec_at_lt newY i) as (y & Hy & ->); [lia |].
    pose proof (Hrange i a Hi Ha) as Hra.
    replace a with (Z.of_nat (Z.to_nat a)) in * by lia.
    set (n := Z.to_nat a) in *. simpl.
    rewrite vec_set_int_Ok by lia. simpl.
    rewrite vec_set_int_Ok by lia. simpl.
    eexists. split; [done |]. unfold I. simpl. rewrite !length_insert.
    split_and!; [done.. | |].
    + intros p Hp Hnone.
      assert (n ≠ p) as Hnp.
      { intros ->. by apply (Hnone i); [lia |]. }
      rewrite !list_lookup_insert_ne by done. apply Hzero; [done |].
      intros j Hj. apply Hnone. lia.
    + intros i' a' Hi' Ha' Hlater.
      destruct (decide (i' = i)) as [-> | Hne].
      * rewrite Ha in Ha'. injection Ha' as <-. rewrite Nat2Z.id.
        rewrite !list_lookup_insert_eq by lia. by rewrite Hx, Hy.
      * assert (a' ≠ Z.of_nat n) as Hna.
        { intros ->. by apply (Hlater i); [lia |]. }
        pose proof (Hrange i' a' ltac:(lia) Ha') as Hra'.
        rewrite !list_lookup_insert_ne by lia.
        apply Hlast; [lia | done |]. intros j Hj. apply Hlater. lia.
  - simpl in *. rewrite !pop_front_snoc. simpl. exists aX, aY.
    split_and!; done.
Qed.

Lemma push_and_rearrange_any_assignment_witness :
  ∃ aX aY,
    push_and_rearrange_data 3 [[1; 2; 3]]%Z [[4; 5; 6]]%Z [2; 0; 2]%Z
        [10; 20; 30]%Z [11; 21; 31]%Z
      = Ok (tail ([[1; 2; 3]]%Z ++ [aX]), tail ([[4; 5; 6]]%Z ++ [aY])) ∧
    length aX = 3 ∧ length aY = 3 ∧
    (∀ s, s < 3 → (∀ i, i < 3 → [2; 0; 2]%Z !! i ≠ Some (Z.of_nat s)) →
       aX !! s = Some 0%Z ∧ aY !! s = Some 0%Z) ∧
    (∀ i a, i < 3 → [2; 0; 2]%Z !! i = Some a →
       (∀ j, i < j < 3 → [2; 0; 2]%Z !! j ≠ Some a) →
       aX !! Z.to_nat a = [10; 20; 30]%Z !! i ∧
       aY !! Z.to_nat a = [11; 21; 31]%Z !! i).
Proof.
  apply (push_and_rearrange_any_assignment 3 [[1; 2; 3]]%Z [[4; 5; 6]]%Z
           [2; 0; 2]%Z [10; 20; 30]%Z [11; 21; 31]%Z).
  - simpl. lia.
  - simpl. lia.
  - simpl. lia.
  - intros [|[|[|i]]] a Hi Ha; simpl in Ha; try lia;
      injection Ha as <-; lia.
Defined.



(** ** getID on a tracking tracker *)

Lemma getID_loop_none rX rY ids x y n :
  ∀ s,
    (∀ i, ¬ (rX !! i = Some x ∧ rY !! i = Some y)) →
    s + n ≤ length rX → s + n ≤ length rY →
    getID_loop (seq s n) rX rY ids x y = Ok (-1)%Z.
Proof.
  induction n as [|n IH]; intros s Hnone HX HY; [done |].
  cbn [seq getID_loop].
  destruct (vec_at_lt rX s) as (xi & Hxi & ->); [lia |]. simpl.
  destruct (vec_at_lt rY s) as (yi & Hyi & Eyi); [lia |].
  case_decide as Hex.
  - rewrite Eyi. simpl. case_decide as Hey.
    + exfalso. apply (Hnone s). by subst.
    + apply IH; [done | lia..].
  - apply IH; [done | lia..].
Qed.

(** X16.  On a tracking tracker getID always returns.  It answers -1 when
    no slot of the newest frame has exactly the coordinates (x, y), and
    otherwise the identity of the lowest-numbered slot that has them. *)
Theorem getID_tracking (t : tracker) (N : nat) (x y : Z) (fX fY : list Z) :
  tracking t N →
  m_matData_X t !! 2 = Some fX → m_matData_Y t !! 2 = Some fY →
  ((∀ i, ¬ (fX !! i = Some x ∧ fY !! i = Some y)) →
   getID t x y = Ok (-1)%Z) ∧
  (∀ i, fX !! i = Some x → fY !! i = Some y →
     (∀ j, j < i → ¬ (fX !! j = Some x ∧ fY !! j = Some y)) →
     ∃ id, m_vecIDs t !! i = Some id ∧ getID t x y = Ok id).
Proof.
  intros [HN (HX & HY & Hids & _)] EfX EfY.
  destruct HX as [_ HFX]. destruct HY as [_ HFY].
  pose proof (Forall_lookup_1 _ _ _ _ HFX EfX) as LfX.
  pose proof (Forall_lookup_1 _ _ _ _ HFY EfY) as LfY.
  simpl in LfX, LfY.
  unfold getID. rewrite (vec_at_Ok _ _ _ EfX), (vec_at_Ok _ _ _ EfY). simpl.
  split.
  - intros Hnone. apply getID_loop_none; [done | lia..].
  - intros i Hx Hy Hfirst.
    assert (i < N) as Hi by (apply lookup_lt_Some in Hx; lia).
    destruct (lookup_lt_is_Some_2 (m_vecIDs t) i) as [id Hid]; [lia |].
    exists id. split; [done |].
    rewrite (getID_loop_first fX fY _ x y i (length fX) 0); try done; [| lia..].
    by apply vec_at_Ok.
Qed.

Lemma getID_tracking_witness :
  ((∀ i, ¬ ([1; 11]%Z !! i = Some 11%Z ∧ [1; 11]%Z !! i = Some 11%Z)) →
   getID two_slots 11 11 = Ok (-1)%Z) ∧
  (∀ i, [1; 11]%Z !! i = Some 11%Z → [1; 11]%Z !! i = Some 11%Z →
     (∀ j, j < i → ¬ ([1; 11]%Z !! j = Some 11%Z ∧ [1; 11]%Z !! j = Some 11%Z)) →
     ∃ id, m_vecIDs two_slots !! i = Some id ∧ getID two_slots 11 11 = Ok id).
Proof.
  apply (getID_tracking two_slots 2 11 11 [1; 11]%Z [1; 11]%Z).
  - exact tracking_two.
  - reflexivity.
  - reflexivity.
Defined.

(** ** What every tick keeps *)

Lemma sublist_Forall_keep {A} (P : A → Prop) (l1 l2 : list A) :
  l1 `sublist_of` l2 → Forall P l2 → Forall P l1.
Proof.
  intros Hsub HF. apply Forall_forall. intros x Hx.
  apply (proj1 (Forall_forall _ _) HF). by eapply elem_of_sublist.
Qed.

Lemma succ_keeps_fresh (good : list Z) :
  Forall (λ g, 0 ≤ g)%Z good → Forall (λ g, 1 ≤ g)%Z (Z.succ <$> good).
Proof.
  intros HF. apply Forall_fmap. eapply Forall_impl; [exact HF |].
  intros g Hg. unfold compose. simpl in *. lia.
Qed.

Lemma fresh_weaken (good : list Z) :
  Forall (λ g, 1 ≤ g)%Z good → Forall (λ g, 0 ≤ g)%Z good.
Proof. intros HF. eapply Forall_impl; [exact HF |]. simpl. lia. Qed.

Lemma tick_keeps_healthy solve t (xs ys : list Z) :
  solver_contract solve → t = fresh ∨ (∃ N, healthy t N) →
  0 < length xs → length xs = length ys →
  ∃ t', pushData solve t xs ys = Done t' ∧ healthy t' (length xs).
Proof.
  intros Hsolve [-> | [N (Ht & Hnd & Hnn & Hfr)]] Hpos Hlen.
  - unfold pushData, ICLASSERT_RETURN. rewrite !decide_True by done.
    rewrite push_data_intern_first_step_spec. simpl.
    eexists. split; [done |]. unfold healthy, tracking, shape. simpl.
    split_and!; try done.
    + by apply frames_intro.
    + by apply frames_intro.
    + by rewrite length_fmap, length_seq.
    + by rewrite length_replicate.
    + apply NoDup_fmap_2; [apply _ | apply NoDup_seq].
    + apply Forall_fmap, Forall_forall. intros i _. simpl. lia.
    + by apply Forall_replicate.
  - pose proof Ht as [HN Hshape].
    destruct (decide (length xs = N)) as [Heq | Hne];
      [| destruct (decide (length xs < N)) as [Hlt | Hge]].
    + destruct (diff_zero_spec solve Hsolve t N xs ys)
        as (pX & pY & m & aX & aY & _ & _ & _ & Hrun & _ & LaX & LaY & _);
        [done | done | lia |].
      rewrite (pushData_equal solve t N) by (done || lia).
      rewrite Hrun. simpl. eexists. split; [done |].
      unfold healthy. simpl. split_and!; try done.
      * split; [done |]. rewrite Heq. by apply shape_after_equal.
      * by apply succ_keeps_fresh, fresh_weaken.
    + destruct (diff_gtz_spec solve Hsolve t N xs ys (N - length xs))
        as (m & aX & aY & rows & Hrun & _ & _ & Hsort & Lrows & Hrange & LaX & LaY & _);
        [done | lia.. |].
      rewrite (pushData_shrink solve t N xs ys (N - length xs)) by (done || lia).
      rewrite Hrun. simpl. eexists. split; [done |].
      unfold healthy. simpl. split_and!.
      * split; [done |]. replace (length xs) with (N - length rows) by lia.
        by apply shape_after_shrink.
      * eapply sublist_NoDup; [exact Hnd | apply delete_rows_sublist].
      * eapply sublist_Forall_keep; [apply delete_rows_sublist | done].
      * apply succ_keeps_fresh, fresh_weaken.
        eapply sublist_Forall_keep; [apply delete_rows_sublist | done].
    + assert (∃ k, k = length xs - N) as [k Hk] by eauto.
      destruct (diff_ltz_spec solve Hsolve t N xs ys k)
        as (m & hX & hY & aX & aY & newIDS & Hrun & _ & HhX & HhY & LaX & LaY & _ & Lnew & Hleast);
        [done | lia.. |].
      rewrite (pushData_grow solve t N xs ys k) by (done || lia).
      rewrite Hrun. simpl. eexists. split; [done |].
      unfold healthy. simpl. split_and!.
      * split; [done |]. replace (length xs) with (N + k) by lia.
        by apply shape_after_grow.
      * by apply least_unused_NoDup.
      * apply Forall_app. split; [done |]. apply Forall_lookup.
        intros i x Hx. by destruct (Hleast i x Hx) as (? & _).
      * apply succ_keeps_fresh, Forall_app. split; [by apply fresh_weaken |].
        by apply Forall_replicate.
Qed.

(** X17.  Every tick on a valid batch keeps the tracker healthy: starting
    fresh, or with pairwise distinct non-negative identities and freshness
    counters of at least 1, pushData runs to its end and the tracker it
    leaves has one slot per pushed point, again pairwise distinct
    non-negative identities, and freshness counters of at least 1. *)
Theorem pushData_keeps_healthy solve t (xs ys : list Z) :
  solver_contract solve → t = fresh ∨ (∃ N, healthy t N) →
  0 < length xs → length xs = length ys →
  ∃ t', pushData solve t xs ys = Done t' ∧ healthy t' (length xs).
Proof. apply tick_keeps_healthy. Qed.

Lemma two_slots_healthy : healthy two_slots 2.
Proof.
  unfold healthy. split_and!.
  - exact tracking_two.
  - exact two_slots_ids_NoDup.
  - unfold two_slots. simpl. repeat constructor; lia.
  - unfold two_slots. simpl. repeat constructor; lia.
Qed.

Lemma pushData_keeps_healthy_witness :
  ∃ t', pushData reversing_solver two_slots [12; 2; 30]%Z [12; 2; 30]%Z = Done t' ∧
    healthy t' (length [12; 2; 30]%Z).
Proof.
  apply (pushData_keeps_healthy reversing_solver two_slots
           [12; 2; 30]%Z [12; 2; 30]%Z).
  - exact reversing_solver_contract.
  - right. exists 2. exact two_slots_healthy.
  - simpl. lia.
  - reflexivity.
Defined.

Lemma pushAll_healthy solve batches :
  solver_contract solve → Forall valid_batch batches →
  ∀ t, t = fresh ∨ (∃ N, healthy t N) →
    ∃ t', pushAll solve t batches = Done t' ∧
      (t' = fresh ∨ ∃ N, healthy t' N) ∧
      ∀ b, last batches = Some b → healthy t' (length b.1).
Proof.
  intros Hsolve. induction 1 as [|b batches [Hpos Hlen] _ IH]; intros t Ht.
  - exists t. split_and!; [done.. |]. by intros b.
  - simpl.
    destruct (tick_keeps_healthy solve t b.1 b.2 Hsolve Ht Hpos Hlen)
      as (t1 & -> & H1).
    destruct (IH t1) as (t' & Hrun & Hinv & Hlast); [right; eauto |].
    exists t'. split_and!; [done.. |].
    intros b'. rewrite last_cons. destruct (last batches) as [b0|] eqn:El.
    + intros [= <-]. by apply Hlast.
    + intros [= <-]. destruct batches as [|b1 bs];
        [| rewrite last_cons in El; by destruct (last bs)].
      simpl in Hrun. by injection Hrun as <-.
Qed.

(** X18.  Any run of pushData calls on valid batches, started on a fresh
    tracker, goes through: no call aborts or is rejected, and after the run
    the tracker is healthy with one slot per point of the last batch. *)
Theorem pushAll_from_fresh solve (batches : list (list Z * list Z)) :
  solver_contract solve → Forall valid_batch batches →
  ∃ t', pushAll solve fresh batches = Done t' ∧
    ∀ b, last batches = Some b → healthy t' (length b.1).
Proof.
  intros Hsolve Hvalid.
  destruct (pushAll_healthy solve batches Hsolve Hvalid fresh)
    as (t' & Hrun & _ & Hlast); [by left |].
  by exists t'.
Qed.

Lemma pushAll_from_fresh_witness :
  ∃ t', pushAll reversing_solver fresh
          [([0; 10], [0; 10]); ([1; 11; 5], [1; 11; 5]); ([2], [2])]%Z = Done t' ∧
    ∀ b, last [([0; 10], [0; 10]); ([1; 11; 5], [1; 11; 5]); ([2], [2])]%Z = Some b →
      healthy t' (length b.1).
Proof.
  apply (pushAll_from_fresh reversing_solver
           [([0; 10], [0; 10]); ([1; 11; 5], [1; 11; 5]); ([2], [2])]%Z).
  - exact reversing_solver_contract.
  - repeat constructor; simpl; lia.
Defined.

(** ** Where the pushed points end up *)

Lemma gather_observations dim asg (aX aY xs ys : list Z) :
  is_assignment dim asg → length xs = dim → length ys = dim →
  (∀ i a, asg !! i = Some a →
     aX !! Z.to_nat a = xs !! i ∧ aY !! Z.to_nat a = ys !! i) →
  slot_point aX aY <$> asg = zip xs ys.
Proof.
  intros Hasg Hxs Hys Hval. pose proof (assignment_length _ _ Hasg) as Hlen.
  apply list_eq. intros i. rewrite list_lookup_fmap.
  destruct (asg !! i) as [a|] eqn:Ea; simpl.
  - assert (i < dim) as Hi by (apply lookup_lt_Some in Ea; lia).
    destruct (lookup_lt_is_Some_2 xs i) as [x Hx]; [lia |].
    destruct (lookup_lt_is_Some_2 ys i) as [y Hy]; [lia |].
    destruct (Hval i a Ea) as [EX EY]. rewrite Hx in EX. rewrite Hy in EY.
    symmetry. apply lookup_zip_Some. unfold slot_point.
    rewrite (list_lookup_total_correct _ _ _ EX),
      (list_lookup_total_correct _ _ _ EY). done.
  - symmetry. apply lookup_zip_None. left. apply lookup_ge_None_2.
    apply lookup_ge_None_1 in Ea. lia.
Qed.

Lemma slots_in_order dim (aX aY : list Z) :
  length aX = dim → length aY = dim →
  slot_point aX aY <$> (Z.of_nat <$> seq 0 dim) = zip aX aY.
Proof.
  intros HX HY. apply list_eq. intros i. rewrite !list_lookup_fmap.
  destruct (decide (i < dim)) as [Hi | Hi].
  - rewrite lookup_seq_lt by done. simpl.
    destruct (lookup_lt_is_Some_2 aX i) as [x Hx]; [lia |].
    destruct (lookup_lt_is_Some_2 aY i) as [y Hy]; [lia |].
    symmetry. apply lookup_zip_Some. unfold slot_point. rewrite Nat2Z.id.
    rewrite (list_lookup_total_correct _ _ _ Hx),
      (list_lookup_total_correct _ _ _ Hy). done.
  - rewrite lookup_seq_ge by lia. simpl. symmetry.
    apply lookup_zip_None. left. apply lookup_ge_None_2. lia.
Qed.

Lemma scatter_Permutation dim asg (aX aY xs ys : list Z) :
  is_assignment dim asg → length aX = dim → length aY = dim →
  length xs = dim → length ys = dim →
  (∀ i a, asg !! i = Some a →
     aX !! Z.to_nat a = xs !! i ∧ aY !! Z.to_nat a = ys !! i) →
  zip aX aY ≡ₚ zip xs ys.
Proof.
  intros Hasg HaX HaY Hxs Hys Hval.
  rewrite <- (slots_in_order dim aX aY), <- (gather_observations dim asg aX aY xs ys)
    by done.
  unfold is_assignment in Hasg. by rewrite Hasg.
Qed.

Lemma delete_zip {A B} (a : list A) (b : list B) i :
  delete i (zip a b) = zip (delete i a) (delete i b).
Proof.
  revert b i. induction a as [|x a IH]; intros [|y b] [|i]; simpl; try done.
  - by destruct a.
  - by rewrite IH.
Qed.

Lemma delete_rows_zip {A B} (a : list A) (b : list B) rows :
  delete_rows rows (zip a b) = zip (delete_rows rows a) (delete_rows rows b).
Proof.
  induction rows as [|r rows IH]; simpl; [done |].
  fold (delete_rows rows (zip a b)) (delete_rows rows a) (delete_rows rows b).
  by rewrite IH, delete_zip.
Qed.

Lemma removeElems_loop_keeps {A} (v : list A) :
  ∀ vidx rows p e,
    v !! p = Some e → (vidx + Z.of_nat p)%Z ∉ rows →
    e ∈ removeElems_loop v vidx rows.
Proof.
  induction v as [|x v IH]; intros vidx rows p e Hp Hnot; [done |]. simpl.
  destruct rows as [|r rows]; [by eapply list_elem_of_lookup_2 |].
  destruct p as [|p]; simpl in Hp.
  - injection Hp as ->. rewrite decide_True; [left |].
    intros ->. apply Hnot. rewrite Z.add_0_r. left.
  - case_decide as Hne.
    + right. apply (IH _ _ p); [done |].
      replace (vidx + 1 + Z.of_nat p)%Z with (vidx + Z.of_nat (S p))%Z by lia.
      done.
    + apply (IH _ _ p); [done |].
      replace (vidx + 1 + Z.of_nat p)%Z with (vidx + Z.of_nat (S p))%Z by lia.
      intros Hin. apply Hnot. by right.
Qed.

Lemma delete_rows_keeps {A} (v : list A) rows (p : nat) e :
  StronglySorted Z.lt rows → Forall (λ r, 0 ≤ r)%Z rows →
  v !! p = Some e → Z.of_nat p ∉ rows → e ∈ delete_rows rows v.
Proof.
  intros Hs Hnn Hp Hnot. rewrite <- removeElemsFromVector_spec by done.
  apply (removeElems_loop_keeps v 0 rows p); [done |]. by rewrite Z.add_0_l.
Qed.

Lemma getID_found (t : tracker) (N : nat) (fX fY : list Z) (x y id : Z) :
  tracking t N →
  m_matData_X t !! 2 = Some fX → m_matData_Y t !! 2 = Some fY →
  NoDup (zip fX fY) → (x, y, id) ∈ zip (zip fX fY) (m_vecIDs t) →
  getID t x y = Ok id.
Proof.
  intros [HN (HX & HY & Hids & _)] EfX EfY Hnd Hin.
  destruct HX as [_ HFX]. destruct HY as [_ HFY].
  pose proof (Forall_lookup_1 _ _ _ _ HFX EfX) as LfX.
  pose proof (Forall_lookup_1 _ _ _ _ HFY EfY) as LfY.
  simpl in LfX, LfY.
  apply list_elem_of_lookup in Hin as [p Hp].
  apply lookup_zip_Some in Hp as [Hxy Hid].
  pose proof Hxy as [Hx Hy]%lookup_zip_Some.
  unfold getID. rewrite (vec_at_Ok _ _ _ EfX), (vec_at_Ok _ _ _ EfY). simpl.
  assert (p < N) as Hlt by (apply lookup_lt_Some in Hx; lia).
  rewrite (getID_loop_first fX fY _ x y p (length fX) 0); try done; [| | lia..].
  - by apply vec_at_Ok.
  - intros j Hj [Hxj Hyj]. assert (j = p); [| lia].
    apply (NoDup_lookup (zip fX fY) j p (x, y) Hnd); by apply lookup_zip_Some.
Qed.

Lemma frames_newest d N (a : list Z) :
  frames d N → tail (d ++ [a]) !! 2 = Some a.
Proof. intros (f0 & f1 & f2 & -> & _)%frames_lookup. done. Qed.

Lemma shrink_points (N : nat) asg rows (aX aY xs ys : list Z) (k : nat) :
  is_assignment N asg → length xs + k = N → length ys = length xs →
  rows ≡ₚ drop (length xs) asg → StronglySorted Z.lt rows →
  Forall (λ r, 0 ≤ r < Z.of_nat N)%Z rows →
  length aX = N → length aY = N →
  (∀ i a, asg !! i = Some a →
     aX !! Z.to_nat a = (xs ++ replicate k BLIND_VALUE) !! i ∧
     aY !! Z.to_nat a = (ys ++ replicate k BLIND_VALUE) !! i) →
  delete_rows rows (zip aX aY) ≡ₚ zip xs ys.
Proof.
  intros Hasg Hk Hys Hperm Hsort Hrange HaX HaY Hval.
  set (xs' := xs ++ replicate k BLIND_VALUE) in *.
  set (ys' := ys ++ replicate k BLIND_VALUE) in *.
  assert (length xs' = N) as Lxs' by (unfold xs'; rewrite length_app, length_replicate; lia).
  assert (length ys' = N) as Lys' by (unfold ys'; rewrite length_app, length_replicate; lia).
  assert (length (zip aX aY) = N) as Lzip by (rewrite length_zip; lia).
  pose proof (delete_rows_Permutation (zip aX aY) rows Hsort) as P1.
  rewrite Lzip in P1. specialize (P1 Hrange).
  assert ((λ r, zip aX aY !!! Z.to_nat r) <$> rows = slot_point aX aY <$> rows) as Eq.
  { apply list_fmap_ext. intros i r Hr.
    pose proof (Forall_lookup_1 _ _ _ _ Hrange Hr) as Hb. simpl in Hb.
    unfold slot_point. apply lookup_total_zip_with; lia. }
  rewrite Eq in P1.
  assert (zip aX aY ≡ₚ zip xs ys ++ (slot_point aX aY <$> rows)) as P2.
  { rewrite <- (slots_in_order N aX aY) by done.
    unfold is_assignment in Hasg. rewrite <- Hasg.
    rewrite <- (take_drop (length xs) asg) at 1.
    rewrite fmap_app, <- Hperm. apply Permutation_app_tail.
    rewrite fmap_take, (gather_observations N asg aX aY xs' ys') by done.
    subst xs' ys'. rewrite zip_with_take.
    rewrite take_app_length. by rewrite <- Hys, take_app_length. }
  rewrite P2 in P1 at 1. by apply Permutation_app_inv_r in P1.
Qed.

Lemma not_in_tail_rows (N : nat) asg rows (D i : nat) a :
  is_assignment N asg → rows ≡ₚ drop D asg → i < D → asg !! i = Some a →
  a ∉ rows.
Proof.
  intros Hasg Hperm Hi Ha Hin. rewrite Hperm in Hin.
  apply list_elem_of_lookup in Hin as [j Hj]. rewrite lookup_drop in Hj.
  assert (i = D + j); [| lia].
  by apply (NoDup_lookup asg i (D + j) a (assignment_NoDup _ _ Hasg)).
Qed.

(** X19.  Identity lookup after a tick with as many points as slots: for
    pairwise distinct pushed points, getID of observation i returns the
    identity that slot assignment[i] had before the tick. *)
Theorem equal_tick_lookup solve t (D : nat) (xs ys : list Z) :
  solver_contract solve → tracking t D → length xs = D → length ys = D →
  NoDup (zip xs ys) →
  ∃ t', pushData solve t xs ys = Done t' ∧
    ∀ i x y a,
      xs !! i = Some x → ys !! i = Some y →
      m_vecCurrentAssignment t' !! i = Some a →
      ∃ id, m_vecIDs t !! Z.to_nat a = Some id ∧ getID t' x y = Ok id.
Proof.
  intros Hsolve Ht Hxs Hys Hnd. pose proof Ht as [HD Hshape].
  pose proof Hshape as (HX & HY & Hids & _).
  destruct (diff_zero_spec solve Hsolve t D xs ys)
    as (pX & pY & m & aX & aY & _ & _ & _ & Hrun & Hasg & LaX & LaY & Hval);
    [done.. |].
  rewrite (pushData_equal solve t D) by done. rewrite Hrun. simpl.
  eexists. split; [done |]. simpl. intros i x y a Hx Hy Ha.
  destruct (assignment_lookup _ _ _ _ Hasg Ha) as (n & -> & Hn).
  rewrite Nat2Z.id. destruct (lookup_lt_is_Some_2 (m_vecIDs t) n) as [id Hid]; [lia |].
  exists id. split; [done |].
  eapply (getID_found _ D aX aY).
  - split; [done |]. by apply shape_after_equal.
  - simpl. by eapply frames_newest.
  - simpl. by eapply frames_newest.
  - rewrite (scatter_Permutation D (solve m) aX aY xs ys); done.
  - simpl. apply (list_elem_of_lookup_2 _ n). apply lookup_zip_Some.
    split; [| done]. apply lookup_zip_Some.
    destruct (Hval i (Z.of_nat n) Ha) as [EX EY]. rewrite Nat2Z.id in EX, EY.
    by rewrite EX, EY.
Qed.

Lemma two_slots_batch_NoDup : NoDup (zip [12; 2]%Z [12; 2]%Z).
Proof. apply (bool_decide_unpack _). reflexivity. Qed.

Lemma equal_tick_lookup_witness :
  ∃ t', pushData reversing_solver two_slots [12; 2]%Z [12; 2]%Z = Done t' ∧
    ∀ i x y a,
      [12; 2]%Z !! i = Some x → [12; 2]%Z !! i = Some y →
      m_vecCurrentAssignment t' !! i = Some a →
      ∃ id, m_vecIDs two_slots !! Z.to_nat a = Some id ∧ getID t' x y = Ok id.
Proof.
  apply (equal_tick_lookup reversing_solver two_slots 2 [12; 2]%Z [12; 2]%Z).
  - exact reversing_solver_contract.
  - exact tracking_two.
  - reflexivity.
  - reflexivity.
  - exact two_slots_batch_NoDup.
Defined.

(** X20.  Identity lookup after a tick with fewer points than slots: for
    pairwise distinct pushed points, getID of observation i returns the
    identity that slot assignment[i] had before the tick, although the
    deletion of the other slots has moved the survivors to new rows. *)
Theorem shrink_tick_lookup solve t (D_old : nat) (xs ys : list Z) :
  solver_contract solve → tracking t D_old →
  0 < length xs < D_old → length ys = length xs → NoDup (zip xs ys) →
  ∃ t', pushData solve t xs ys = Done t' ∧
    ∀ i x y a,
      xs !! i = Some x → ys !! i = Some y →
      m_vecCurrentAssignment t' !! i = Some a →
      ∃ id, m_vecIDs t !! Z.to_nat a = Some id ∧ getID t' x y = Ok id.
Proof.
  intros Hsolve Ht [Hpos Hlt] Hys Hnd. pose proof Ht as [HD Hshape].
  pose proof Hshape as (HX & HY & Hids & _).
  destruct (diff_gtz_spec solve Hsolve t D_old xs ys (D_old - length xs))
    as (m & aX & aY & rows & Hrun & Hasg & Hperm & Hsort & Lrows & Hrange & LaX & LaY & Hval);
    [done | lia.. |].
  rewrite (pushData_shrink solve t D_old xs ys (D_old - length xs)) by (done || lia).
  rewrite Hrun. simpl. eexists. split; [done |]. simpl.
  intros i x y a Hx Hy Ha.
  assert (i < length xs) as Hi by (by eapply lookup_lt_Some).
  destruct (assignment_lookup _ _ _ _ Hasg Ha) as (n & -> & Hn).
  rewrite Nat2Z.id. destruct (lookup_lt_is_Some_2 (m_vecIDs t) n) as [id Hid]; [lia |].
  exists id. split; [done |].
  assert (Forall (λ r, 0 ≤ r)%Z rows) as Hnonneg.
  { eapply Forall_impl; [exact Hrange |]. simpl. lia. }
  eapply (getID_found _ (D_old - length rows) (delete_rows rows aX) (delete_rows rows aY)).
  - split; [lia |]. by apply shape_after_shrink.
  - simpl. rewrite list_lookup_fmap, (frames_newest _ D_old) by done. done.
  - simpl. rewrite list_lookup_fmap, (frames_newest _ D_old) by done. done.
  - rewrite <- delete_rows_zip.
    rewrite (shrink_points D_old (solve m) rows aX aY xs ys (D_old - length xs));
      try done. lia.
  - simpl. rewrite <- !delete_rows_zip.
    apply (delete_rows_keeps _ _ n); [done | done | |].
    + apply lookup_zip_Some. split; [| done]. apply lookup_zip_Some.
      destruct (Hval i (Z.of_nat n) Ha) as [EX EY]. rewrite Nat2Z.id in EX, EY.
      rewrite lookup_app_l in EX, EY by lia. by rewrite EX, EY.
    + by eapply (not_in_tail_rows D_old (solve m) rows (length xs) i).
Qed.

Lemma four_slots_batch_NoDup : NoDup (zip [13; 3]%Z [13; 3]%Z).
Proof. apply (bool_decide_unpack _). reflexivity. Qed.

Lemma shrink_tick_lookup_witness :
  ∃ t', pushData reversing_solver four_slots [13; 3]%Z [13; 3]%Z = Done t' ∧
    ∀ i x y a,
      [13; 3]%Z !! i = Some x → [13; 3]%Z !! i = Some y →
      m_vecCurrentAssignment t' !! i = Some a →
      ∃ id, m_vecIDs four_slots !! Z.to_nat a = Some id ∧ getID t' x y = Ok id.
Proof.
  apply (shrink_tick_lookup reversing_solver four_slots 4 [13; 3]%Z [13; 3]%Z).
  - exact reversing_solver_contract.
  - exact tracking_four.
  - simpl. lia.
  - reflexivity.
  - exact four_slots_batch_NoDup.
Defined.

(** X21.  Identity lookup after a tick with more points than slots: for
    pairwise distinct pushed points, getID of observation i returns the
    identity of slot assignment[i]; that is the identity the slot had before
    the tick when the slot existed, and an identity that no slot had before
    the tick when the slot is one of the new ones. *)
Theorem growth_tick_lookup solve t (D_old : nat) (xs ys : list Z) :
  solver_contract solve → tracking t D_old →
  D_old < length xs → length ys = length xs → NoDup (zip xs ys) →
  ∃ t', pushData solve t xs ys = Done t' ∧
    ∀ i x y a,
      xs !! i = Some x → ys !! i = Some y →
      m_vecCurrentAssignment t' !! i = Some a →
      ∃ id, m_vecIDs t' !! Z.to_nat a = Some id ∧ getID t' x y = Ok id ∧
        (Z.to_nat a < D_old → m_vecIDs t !! Z.to_nat a = Some id) ∧
        (D_old ≤ Z.to_nat a → id ∉ m_vecIDs t).
Proof.
  intros Hsolve Ht Hgt Hys Hnd. pose proof Ht as [HD Hshape].
  pose proof Hshape as (HX & HY & Hids & _).
  assert (∃ k, k = length xs - D_old) as [k Hk] by eauto.
  destruct (diff_ltz_spec solve Hsolve t D_old xs ys k)
    as (m & hX & hY & aX & aY & newIDS & Hrun & Hasg & HhX & HhY & LaX & LaY & Hval & Lnew & Hleast);
    [done | lia.. |].
  rewrite (pushData_grow solve t D_old xs ys k) by (done || lia).
  rewrite Hrun. simpl. eexists. split; [done |]. simpl.
  intros i x y a Hx Hy Ha.
  destruct (assignment_lookup _ _ _ _ Hasg Ha) as (n & -> & Hn).
  rewrite Nat2Z.id.
  destruct (lookup_lt_is_Some_2 (m_vecIDs t ++ newIDS) n) as [id Hid];
    [rewrite length_app; lia |].
  exists id. split_and!; [done | | |].
  - eapply (getID_found _ (D_old + k) aX aY).
    + split; [lia |]. by apply shape_after_grow.
    + simpl. by eapply frames_newest.
    + simpl. by eapply frames_newest.
    + rewrite (scatter_Permutation (D_old + k) (solve m) aX aY xs ys);
        try done; lia.
    + simpl. apply (list_elem_of_lookup_2 _ n). apply lookup_zip_Some.
      split; [| done]. apply lookup_zip_Some.
      destruct (Hval i (Z.of_nat n) Ha) as [EX EY]. rewrite Nat2Z.id in EX, EY.
      by rewrite EX, EY.
  - intros Hold. by rewrite lookup_app_l in Hid by lia.
  - intros Hnew. rewrite lookup_app_r in Hid by lia.
    destruct (Hleast _ _ Hid) as (_ & Hnot & _).
    intros Hin. apply Hnot, elem_of_app. by left.
Qed.

Lemma growth_batch_NoDup : NoDup (zip [12; 2; 30; 40]%Z [12; 2; 30; 40]%Z).
Proof. apply (bool_decide_unpack _). reflexivity. Qed.

Lemma growth_tick_lookup_witness :
  ∃ t', pushData reversing_solver two_slots [12; 2; 30; 40]%Z [12; 2; 30; 40]%Z
          = Done t' ∧
    ∀ i x y a,
      [12; 2; 30; 40]%Z !! i = Some x → [12; 2; 30; 40]%Z !! i = Some y →
      m_vecCurrentAssignment t' !! i = Some a →
      ∃ id, m_vecIDs t' !! Z.to_nat a = Some id ∧ getID t' x y = Ok id ∧
        (Z.to_nat a < 2 → m_vecIDs two_slots !! Z.to_nat a = Some id) ∧
        (2 ≤ Z.to_nat a → id ∉ m_vecIDs two_slots).
Proof.
  apply (growth_tick_lookup reversing_solver two_slots 2
           [12; 2; 30; 40]%Z [12; 2; 30; 40]%Z).
  - exact reversing_solver_contract.
  - exact tracking_two.
  - simpl. lia.
  - reflexivity.
  - exact growth_batch_NoDup.
Defined.

Lemma newest_points_frames dX dY ids asg good N (aX aY : list Z) :
  frames dX N → frames dY N →
  newest_points (Tracker (tail (dX ++ [aX])) (tail (dY ++ [aY])) ids asg good)
    = zip aX aY.
Proof.
  intros HX HY. unfold newest_points. simpl.
  by rewrite (frames_newest dX N), (frames_newest dY N).
Qed.

(** X22.  After every tick on a valid batch the newest history frame holds
    exactly the pushed points, each once, in slot order: however the batch
    size compares with the slot count, no pushed point is lost and no blind
    value stays in the newest frame. *)
Theorem pushData_newest_points solve t (xs ys : list Z) :
  solver_contract solve → t = fresh ∨ (∃ N, tracking t N) →
  0 < length xs → length xs = length ys →
  ∃ t', pushData solve t xs ys = Done t' ∧ newest_points t' ≡ₚ zip xs ys.
Proof.
  intros Hsolve [-> | [N Ht]] Hpos Hlen.
  - unfold pushData, ICLASSERT_RETURN. rewrite !decide_True by done.
    rewrite push_data_intern_first_step_spec. simpl. eexists. split; done.
  - pose proof Ht as [HN Hshape]. pose proof Hshape as (HX & HY & _).
    destruct (decide (length xs = N)) as [Heq | Hne];
      [| destruct (decide (length xs < N)) as [Hlt | Hge]].
    + destruct (diff_zero_spec solve Hsolve t N xs ys)
        as (pX & pY & m & aX & aY & _ & _ & _ & Hrun & Hasg & LaX & LaY & Hval);
        [done | done | lia |].
      rewrite (pushData_equal solve t N) by (done || lia).
      rewrite Hrun. simpl. eexists. split; [done |].
      rewrite (newest_points_frames _ _ _ _ _ N) by done.
      apply (scatter_Permutation N (solve m)); (done || lia).
    + destruct (diff_gtz_spec solve Hsolve t N xs ys (N - length xs))
        as (m & aX & aY & rows & Hrun & Hasg & Hperm & Hsort & Lrows & Hrange & LaX & LaY & Hval);
        [done | lia.. |].
      rewrite (pushData_shrink solve t N xs ys (N - length xs)) by (done || lia).
      rewrite Hrun. simpl. eexists. split; [done |].
      unfold newest_points. simpl.
      rewrite !list_lookup_fmap, !(frames_newest _ N) by done. simpl.
      rewrite <- delete_rows_zip.
      apply (shrink_points N (solve m) rows aX aY xs ys (N - length xs));
        (done || lia).
    + assert (∃ k, k = length xs - N) as [k Hk] by eauto.
      destruct (diff_ltz_spec solve Hsolve t N xs ys k)
        as (m & hX & hY & aX & aY & newIDS & Hrun & Hasg & HhX & HhY & LaX & LaY & Hval & _);
        [done | lia.. |].
      rewrite (pushData_grow solve t N xs ys k) by (done || lia).
      rewrite Hrun. simpl. eexists. split; [done |].
      rewrite (newest_points_frames _ _ _ _ _ (N + k)) by done.
      apply (scatter_Permutation (N + k) (solve m)); (done || lia).
Qed.

Lemma pushData_newest_points_witness :
  ∃ t', pushData reversing_solver four_slots [13; 3]%Z [14; 4]%Z = Done t' ∧
    newest_points t' ≡ₚ zip [13; 3]%Z [14; 4]%Z.
Proof.
  apply (pushData_newest_points reversing_solver four_slots [13; 3]%Z [14; 4]%Z).
  - exact reversing_solver_contract.
  - right. exists 4. exact tracking_four.
  - simpl. lia.
  - reflexivity.
Defined.

(** ** What a growing tick writes into the history *)

Lemma filter_all {A} (P : A → Prop) `{∀ x, Decision (P x)} (l : list A) :
  Forall P l → filter P l = l.
Proof.
  induction 1 as [|x l Hx _ IH]; [done |].
  rewrite filter_cons_True by done. by rewrite IH.
Qed.

Lemma filter_none {A} (P : A → Prop) `{∀ x, Decision (P x)} (l : list A) :
  Forall (λ x, ¬ P x) l → filter P l = [].
Proof.
  induction 1 as [|x l Hx _ IH]; [done |].
  by rewrite filter_cons_False by done.
Qed.

Lemma filter_tail_indices (N k : nat) :
  filter (λ a, Z.of_nat (N + k) - Z.of_nat k ≤ a)%Z (Z.of_nat <$> seq 0 (N + k))
    = Z.of_nat <$> seq N k.
Proof.
  rewrite seq_app, fmap_app, filter_app. simpl.
  rewrite filter_none, filter_all; [done | |].
  - apply Forall_fmap, Forall_forall. intros n [Hn _]%elem_of_seq. simpl. lia.
  - apply Forall_fmap, Forall_forall. intros n [_ Hn]%elem_of_seq. simpl. lia.
Qed.

Lemma zip_fmap_same {A} (f g : A → Z) (l : list A) :
  zip (f <$> l) (g <$> l) = (λ a, (f a, g a)) <$> l.
Proof. induction l as [|a l IH]; simpl; [done |]. f_equal. exact IH. Qed.

Lemma newDataColsValues_content (N k : nat) asg (newX newY : list Z) :
  is_assignment (N + k) asg → N + k ≤ length newX → N + k ≤ length newY →
  newDataColsValues (N + k) (Z.of_nat k) asg newX newY
    = Ok ((λ a, newX !!! Z.to_nat a) <$>
            filter (λ a, Z.of_nat (N + k) - Z.of_nat k ≤ a)%Z asg,
          (λ a, newY !!! Z.to_nat a) <$>
            filter (λ a, Z.of_nat (N + k) - Z.of_nat k ≤ a)%Z asg).
Proof.
  intros Hasg HX HY. unfold newDataColsValues.
  pose proof (assignment_length _ _ Hasg) as Hlen.
  set (P := λ a : Z, (Z.of_nat (N + k) - Z.of_nat k ≤ a)%Z).
  set (I := λ (m : nat) (s : list Z * list Z),
    s.1 = (λ a, newX !!! Z.to_nat a) <$> filter P (take m asg) ∧
    s.2 = (λ a, newY !!! Z.to_nat a) <$> filter P (take m asg)).
  match goal with |- context [for_range ?n ?b ?s] =>
    destruct (for_range_inv I b n s) as ([cX cY] & -> & HcX & HcY) end.
  - unfold I. by rewrite take_0.
  - intros i [cX cY] Hi [HcX HcY]. simpl in *. subst cX cY.
    destruct (vec_at_lt asg i) as (a & Ha & ->); [lia |]. simpl.
    unfold I. rewrite (take_S_r _ _ _ Ha), filter_app, !fmap_app. simpl.
    destruct (assignment_lookup _ _ _ _ Hasg Ha) as (n & -> & Hn).
    fold P. case_decide as Hp.
    + destruct (lookup_lt_is_Some_2 newX n) as [vx Hvx]; [lia |].
      destruct (lookup_lt_is_Some_2 newY n) as [vy Hvy]; [lia |].
      rewrite (vec_at_int_Ok _ _ _ Hvx), (vec_at_int_Ok _ _ _ Hvy). simpl.
      eexists. split; [done |]. simpl.
      rewrite filter_cons_True by done. simpl. rewrite Nat2Z.id.
      by rewrite (list_lookup_total_correct _ _ _ Hvx),
        (list_lookup_total_correct _ _ _ Hvy).
    + eexists. split; [done |]. simpl.
      rewrite filter_cons_False by done. simpl. by rewrite !app_nil_r.
  - simpl in *. rewrite take_ge in HcX, HcY by lia. by subst.
Qed.

Lemma collected_points (N k : nat) asg (xs ys : list Z) :
  is_assignment (N + k) asg → length xs = N + k → length ys = N + k →
  zip ((λ a, xs !!! Z.to_nat a) <$>
         filter (λ a, Z.of_nat (N + k) - Z.of_nat k ≤ a)%Z asg)
      ((λ a, ys !!! Z.to_nat a) <$>
         filter (λ a, Z.of_nat (N + k) - Z.of_nat k ≤ a)%Z asg)
    ≡ₚ drop N (zip xs ys).
Proof.
  intros Hasg Hxs Hys. rewrite zip_fmap_same.
  change (λ a, (xs !!! Z.to_nat a, ys !!! Z.to_nat a)) with (slot_point xs ys).
  unfold is_assignment in Hasg. rewrite Hasg, filter_tail_indices.
  rewrite <- (slots_in_order (N + k) xs ys) by done.
  rewrite <- !fmap_drop, drop_seq. simpl.
  by replace (N + k - N) with k by lia.
Qed.

Lemma set_new_slot (g cX : list Z) (N k m : nat) (vx : Z) :
  length g = N → cX !! m = Some vx → m < k →
  <[N + m := vx]> (g ++ take m cX ++ replicate (k - m) BLIND_VALUE)
    = g ++ take (S m) cX ++ replicate (k - S m) BLIND_VALUE.
Proof.
  intros Hg Hvx Hm. apply lookup_lt_Some in Hvx as Hlt.
  rewrite insert_app_r_alt by lia. f_equal.
  rewrite insert_app_r_alt by (rewrite length_take; lia).
  rewrite length_take. replace (N + m - length g - m `min` length cX) with 0 by lia.
  replace (k - m) with (S (k - S m)) by lia. simpl.
  by rewrite (take_S_r _ _ _ Hvx), <- app_assoc.
Qed.

Lemma backfill_content (N k : nat) (cX cY newIDS : list Z)
    (g0 g1 g2 h0 h1 h2 ids good : list Z) :
  length g0 = N → length g1 = N → length g2 = N →
  length h0 = N → length h1 = N → length h2 = N →
  k ≤ length cX → k ≤ length cY → k ≤ length newIDS →
  backfill (N + k) (Z.of_nat k) cX cY newIDS
      ((λ f, f ++ replicate k BLIND_VALUE) <$> [g0; g1; g2])
      ((λ f, f ++ replicate k BLIND_VALUE) <$> [h0; h1; h2]) ids good
    = Ok ((λ f, f ++ take k cX) <$> [g0; g1; g2],
          (λ f, f ++ take k cY) <$> [h0; h1; h2],
          ids ++ take k newIDS, good ++ replicate k 0%Z).
Proof.
  intros G0 G1 G2 H0 H1 H2 HcX HcY Hnew. unfold backfill. rewrite Nat2Z.id.
  set (I := λ (m : nat) (s : list (list Z) * list (list Z) * list Z * list Z),
    s.1.1.1 = (λ f, f ++ take m cX ++ replicate (k - m) BLIND_VALUE) <$> [g0; g1; g2] ∧
    s.1.1.2 = (λ f, f ++ take m cY ++ replicate (k - m) BLIND_VALUE) <$> [h0; h1; h2] ∧
    s.1.2 = ids ++ take m newIDS ∧ s.2 = good ++ replicate m 0%Z).
  match goal with |- context [for_range ?n ?b ?s] =>
    destruct (for_range_inv I b n s)
      as ([[[dX' dY'] ids'] good'] & -> & HX' & HY' & Hids & Hgood) end.
  - unfold I. cbn [fst snd]. rewrite !take_0, Nat.sub_0_r, !app_nil_r. done.
  - intros i [[[dX1 dY1] ids1] good1] Hi HI. unfold I in HI. cbn [fst snd] in HI.
    destruct HI as (-> & -> & -> & ->).
    destruct (lookup_lt_is_Some_2 cX i) as [vx Hvx]; [lia |].
    destruct (lookup_lt_is_Some_2 cY i) as [vy Hvy]; [lia |].
    destruct (lookup_lt_is_Some_2 newIDS i) as [id Hid]; [lia |].
    assert (∀ g (c : list Z), length g = N → k ≤ length c →
              N + i < length (g ++ take i c ++ replicate (k - i) BLIND_VALUE))
      as Hlen.
    { intros g c Hg Hc. rewrite !length_app, length_take, length_replicate. lia. }
    replace (Z.of_nat (N + k) - Z.of_nat k + Z.of_nat i)%Z
      with (Z.of_nat (N + i)) by lia.
    unfold for_range. cbn [seq for_each fmap list_fmap].
    cbn [vec_at lookup list_lookup mbind result_bind].
    rewrite (vec_at_Ok _ _ _ Hvx), (vec_at_Ok _ _ _ Hvy), (vec_at_Ok _ _ _ Hid).
    cbn [mbind result_bind].
    rewrite !vec_set_int_Ok by (by apply Hlen).
    cbn [mbind result_bind].
    unfold vec_set. cbn [length]. rewrite !decide_True by lia.
    cbn [mbind result_bind insert list_insert vec_at lookup list_lookup].
    rewrite !vec_set_int_Ok by (by apply Hlen).
    cbn [mbind result_bind]. unfold vec_set. cbn [length].
    rewrite !decide_True by lia.
    cbn [mbind result_bind insert list_insert vec_at lookup list_lookup].
    rewrite !vec_set_int_Ok by (by apply Hlen).
    cbn [mbind result_bind]. unfold vec_set. cbn [length].
    rewrite !decide_True by lia.
    cbn [mbind result_bind insert list_insert vec_at lookup list_lookup].
    eexists. split; [done |]. unfold I. cbn [fst snd fmap list_fmap].
    rewrite !(set_new_slot _ _ N k i) by (done || lia).
    rewrite (take_S_r _ _ _ Hid), replicate_S_end, !app_assoc. done.
  - cbn [fst snd] in *. subst.
    rewrite Nat.sub_diag. cbn [fmap list_fmap replicate]. by rewrite !app_nil_r.
Qed.

Lemma diff_ltz_content solve t (N k : nat) (xs ys g0 g1 g2 h0 h1 h2 : list Z) :
  solver_contract solve → shape t N →
  m_matData_X t = [g0; g1; g2] → m_matData_Y t = [h0; h1; h2] →
  0 < k → length xs = N + k → length ys = length xs →
  ∃ m aX aY newIDS cX cY,
    push_data_intern_diff_ltz solve (- Z.of_nat k) t xs ys
      = Ok (Tracker [g1 ++ cX; g2 ++ cX; aX] [h1 ++ cY; h2 ++ cY; aY]
              (m_vecIDs t ++ newIDS) (solve m)
              (Z.succ <$> (m_vecGoodDataCount t ++ replicate k 0%Z)), false) ∧
    zip cX cY ≡ₚ drop N (zip xs ys) ∧ length cX = k ∧ length cY = k.
Proof.
  intros Hsolve (HX & HY & Hids & Hgood) EX EY Hk Hxs Hys.
  rewrite EX in HX. rewrite EY in HY.
  pose proof HX as (? & ? & ? & [= <- <- <-] & G0 & G1 & G2)%frames_lookup.
  pose proof HY as (? & ? & ? & [= <- <- <-] & H0 & H1 & H2)%frames_lookup.
  set (pad := λ f : list Z, f ++ replicate k BLIND_VALUE).
  assert (∀ f, length f = N → length (pad f) = N + k) as Lpad.
  { intros f Hf. unfold pad. rewrite length_app, length_replicate. lia. }
  pose proof (frames_fmap _ _ _ pad HX Lpad) as HpX.
  pose proof (frames_fmap _ _ _ pad HY Lpad) as HpY.
  set (good1 := m_vecGoodDataCount t ++ replicate k 1%Z).
  assert (length good1 = N + k) as Lgood1
    by (unfold good1; rewrite length_app, length_replicate; lia).
  destruct (predict_total _ (N + k) good1 (N + k) HpX) as (pX & EpX & LpX);
    [lia.. |].
  destruct (predict_total _ (N + k) good1 (N + k) HpY) as (pY & EpY & LpY);
    [lia.. |].
  destruct (createDistMat_total pX pY xs ys) as (m & Hm & Lm & _); [lia.. |].
  assert (is_assignment (N + k) (solve m)) as Hasg.
  { rewrite <- LpX, <- Lm. apply Hsolve. }
  set (cX := (λ a, xs !!! Z.to_nat a) <$>
               filter (λ a, Z.of_nat (N + k) - Z.of_nat k ≤ a)%Z (solve m)).
  set (cY := (λ a, ys !!! Z.to_nat a) <$>
               filter (λ a, Z.of_nat (N + k) - Z.of_nat k ≤ a)%Z (solve m)).
  assert (length cX = k) as LcX.
  { unfold cX. rewrite length_fmap. apply assignment_count; [done | lia]. }
  assert (length cY = k) as LcY.
  { unfold cY. rewrite length_fmap. apply assignment_count; [done | lia]. }
  destruct (get_n_new_ids_spec (m_vecIDs t) k) as (newIDS & Hnew & Lnew & _).
  destruct (push_and_rearrange_data_spec (N + k)
              ((λ f, f ++ take k cX) <$> [g0; g1; g2])
              ((λ f, f ++ take k cY) <$> [h0; h1; h2]) (solve m) xs ys)
    as (aX & aY & Hpush & _); [done | lia.. |].
  exists m, aX, aY, newIDS, cX, cY. split_and!; [| | done..].
  - unfold push_data_intern_diff_ltz.
    replace (- Z.of_nat k * -1)%Z with (Z.of_nat k) by lia. rewrite Nat2Z.id.
    destruct (frames_at _ _ 0 HpX) as (f0 & Hf0 & Lf0); [lia |].
    rewrite EX, EY, pad_history_spec by done.
    cbn [mbind result_bind]. fold pad.
    rewrite Hf0. cbn [mbind result_bind]. rewrite Lf0. fold good1.
    rewrite EpX. cbn [mbind result_bind]. rewrite EpY. cbn [mbind result_bind].
    rewrite Hm. cbn [mbind result_bind].
    rewrite newDataColsValues_content by (done || lia).
    cbn [mbind result_bind]. fold cX cY.
    rewrite Hnew. cbn [mbind result_bind].
    replace (take (length good1 - k) good1) with (m_vecGoodDataCount t).
    2:{ unfold good1. rewrite length_app, length_replicate.
        replace (length (m_vecGoodDataCount t) + k - k)
          with (length (m_vecGoodDataCount t)) by lia.
        by rewrite take_app_length. }
    unfold pad. rewrite (backfill_content N k) by (done || lia).
    cbn [mbind result_bind].
    rewrite Hpush. cbn [mbind result_bind].
    rewrite (take_ge cX), (take_ge cY), (take_ge newIDS) by lia.
    unfold size_mismatch_warning.
    rewrite bool_decide_eq_false_2 by lia. done.
  - apply collected_points; [done | lia..].
Qed.

(** X23.  What a growing tick leaves in the two older history frames.  For
    the slots that existed, the frames slide as in any tick (the old newer
    frames become the older ones).  For the k new slots, both older frames
    hold the coordinates of the observations numbered D_old and up, in the
    order in which the assignment lists them: every blind value that padded
    the history has been overwritten. *)
Theorem growth_tick_history solve t (D_old : nat) (xs ys : list Z) :
  solver_contract solve → tracking t D_old →
  D_old < length xs → length ys = length xs →
  ∃ t' cX cY,
    pushData solve t xs ys = Done t' ∧
    zip cX cY ≡ₚ drop D_old (zip xs ys) ∧
    (∀ j f, j < 2 → m_matData_X t !! S j = Some f →
       m_matData_X t' !! j = Some (f ++ cX)) ∧
    (∀ j f, j < 2 → m_matData_Y t !! S j = Some f →
       m_matData_Y t' !! j = Some (f ++ cY)).
Proof.
  intros Hsolve Ht Hgt Hys. pose proof Ht as [HD Hshape].
  pose proof Hshape as (HX & HY & _).
  apply frames_lookup in HX as (g0 & g1 & g2 & EX & _).
  apply frames_lookup in HY as (h0 & h1 & h2 & EY & _).
  assert (∃ k, k = length xs - D_old) as [k Hk] by eauto.
  destruct (diff_ltz_content solve t D_old k xs ys g0 g1 g2 h0 h1 h2)
    as (m & aX & aY & newIDS & cX & cY & Hrun & Hperm & _); [done.. | lia | lia | done |].
  rewrite (pushData_grow solve t D_old xs ys k) by (done || lia).
  rewrite Hrun. simpl. eexists _, cX, cY. split; [done |]. simpl.
  rewrite EX, EY. split_and!; [done | |].
  - intros [|[|j]] f Hj Hf; simpl in *; [by injection Hf as <-.. | lia].
  - intros [|[|j]] f Hj Hf; simpl in *; [by injection Hf as <-.. | lia].
Qed.

Lemma growth_tick_history_witness :
  ∃ t' cX cY,
    pushData reversing_solver two_slots [12; 2; 30; 40]%Z [13; 3; 31; 41]%Z
      = Done t' ∧
    zip cX cY ≡ₚ drop 2 (zip [12; 2; 30; 40]%Z [13; 3; 31; 41]%Z) ∧
    (∀ j f, j < 2 → m_matData_X two_slots !! S j = Some f →
       m_matData_X t' !! j = Some (f ++ cX)) ∧
    (∀ j f, j < 2 → m_matData_Y two_slots !! S j = Some f →
       m_matData_Y t' !! j = Some (f ++ cY)).
Proof.
  apply (growth_tick_history reversing_solver two_slots 2
           [12; 2; 30; 40]%Z [13; 3; 31; 41]%Z).
  - exact reversing_solver_contract.
  - exact tracking_two.
  - simpl. lia.
  - reflexivity.
Defined.

(** X24.  Freshness after a growing tick: the counter of every slot that
    existed is one more than before, and each of the k new slots starts
    with the counter 1. *)
Theorem growth_tick_freshness solve t (D_old : nat) (xs ys : list Z) :
  solver_contract solve → tracking t D_old →
  D_old < length xs → length ys = length xs →
  ∃ t', pushData solve t xs ys = Done t' ∧
    m_vecGoodDataCount t'
      = (Z.succ <$> m_vecGoodDataCount t) ++ replicate (length xs - D_old) 1%Z.
Proof.
  intros Hsolve Ht Hgt Hys. pose proof Ht as [HD Hshape].
  assert (∃ k, k = length xs - D_old) as [k Hk] by eauto.
  destruct (diff_ltz_spec solve Hsolve t D_old xs ys k)
    as (m & hX & hY & aX & aY & newIDS & Hrun & _); [done | lia.. |].
  rewrite (pushData_grow solve t D_old xs ys k) by (done || lia).
  rewrite Hrun. simpl. eexists. split; [done |]. simpl.
  rewrite fmap_app, fmap_replicate. by subst k.
Qed.

Lemma growth_tick_freshness_witness :
  ∃ t', pushData reversing_solver two_slots [12; 2; 30; 40]%Z [13; 3; 31; 41]%Z
          = Done t' ∧
    m_vecGoodDataCount t'
      = (Z.succ <$> m_vecGoodDataCount two_slots)
          ++ replicate (length [12; 2; 30; 40]%Z - 2) 1%Z.
Proof.
  apply (growth_tick_freshness reversing_solver two_slots 2
           [12; 2; 30; 40]%Z [13; 3; 31; 41]%Z).
  - exact reversing_solver_contract.
  - exact tracking_two.
  - simpl. lia.
  - reflexivity.
Defined.

(** ** removeRowsFromDataMatrix and the padded prediction *)

(** X25.  removeRowsFromDataMatrix takes the frames 0, 1 and 2 of each axis
    without looking at the depth of the deque: on an X deque of fewer than
    three frames it reads outside the deque. *)
Theorem removeRowsFromDataMatrix_needs_three_frames (mX mY : list (list Z))
    (rows : list Z) :
  length mX < 3 → removeRowsFromDataMatrix mX mY rows = Err OutOfRange.
Proof.
  intros Hshort. unfold removeRowsFromDataMatrix, removeRows_axis, for_range.
  set (I := λ (_ : nat) (md : list (list Z)), length md = length mX).
  match goal with |- context [for_each _ ?b mX] =>
    rewrite (for_each_fail I b OutOfRange 3 0 mX (length mX)) end; try done.
  - lia.
  - intros i md Hi Hmd. unfold I in *.
    destruct (vec_at_lt md i) as (v & _ & ->); [lia |]. simpl.
    rewrite vec_set_Ok by lia. eexists. split; [done |]. by rewrite length_insert.
  - intros md Hmd. unfold I in Hmd.
    assert (vec_at md (length mX) = Err OutOfRange) as ->; [| done].
    unfold vec_at. by rewrite lookup_ge_None_2 by lia.
Qed.

Lemma removeRowsFromDataMatrix_needs_three_frames_witness :
  removeRowsFromDataMatrix [[1; 2]; [3; 4]]%Z [[1; 2]; [3; 4]; [5; 6]]%Z [0]%Z
    = Err OutOfRange.
Proof.
  apply (removeRowsFromDataMatrix_needs_three_frames
           [[1; 2]; [3; 4]]%Z [[1; 2]; [3; 4]; [5; 6]]%Z [0]%Z).
  simpl. lia.
Defined.

Lemma predict_slot_padded (d : list (list Z)) (good pad1 : list Z) (k y : nat) :
  y < length good → Forall (λ f, y < length f) d →
  predict_slot ((λ f, f ++ replicate k BLIND_VALUE) <$> d) (good ++ pad1) y
    = predict_slot d good y.
Proof.
  intros Hy HF. unfold predict_slot, vec_at.
  rewrite lookup_app_l by done. rewrite !list_lookup_fmap.
  assert (∀ j, ((λ f, f ++ replicate k BLIND_VALUE) <$> d !! j)
                 ≫= (λ f, f !! y) = (d !! j) ≫= (λ f, f !! y)) as Hsame.
  { intros j. destruct (d !! j) as [f|] eqn:Ef; [| done]. simpl.
    apply lookup_app_l. by apply (Forall_lookup_1 _ _ _ _ HF Ef). }
  pose proof (Hsame 0) as H0. pose proof (Hsame 1) as H1.
  pose proof (Hsame 2) as H2.
  destruct (good !! y) as [g|]; simpl; [| done].
  destruct (d !! 0) as [f0|], (d !! 1) as [f1|], (d !! 2) as [f2|];
    simpl in *; rewrite ?H0, ?H1, ?H2; done.
Qed.

(** X26.  The prediction of a growing tick.  The history is padded with k
    blind entries per frame and the counters with k ones, so the padded
    slots are predicted at the blind value itself, and the predictions of
    the slots that exist are what predict gives without the padding. *)
Theorem predict_padded (d : list (list Z)) (N k : nat) (good : list Z) :
  frames d N → length good = N →
  ∃ p0 p,
    predict N d good = Ok p0 ∧
    predict (N + k) ((λ f, f ++ replicate k BLIND_VALUE) <$> d)
      (good ++ replicate k 1%Z) = Ok p ∧
    p = p0 ++ replicate k BLIND_VALUE.
Proof.
  intros Hd Hgood.
  destruct (predict_total d N good N Hd) as (p0 & Hp0 & Lp0); [lia.. |].
  assert (frames ((λ f, f ++ replicate k BLIND_VALUE) <$> d) (N + k)) as Hpd.
  { eapply frames_fmap; [exact Hd |]. intros f Hf.
    rewrite length_app, length_replicate. lia. }
  destruct (predict_total _ (N + k) (good ++ replicate k 1%Z) (N + k) Hpd)
    as (p & Hp & Lp); [lia | rewrite length_app, length_replicate; lia |].
  exists p0, p. split_and!; [done.. |].
  apply collect_range in Hp0 as [_ H0]. apply collect_range in Hp as [_ H1].
  apply list_eq. intros y. destruct (decide (y < N)) as [Hy | Hy].
  - destruct (H0 y Hy) as (v0 & Ev0 & Hv0).
    destruct (H1 y ltac:(lia)) as (v & -> & Hv).
    rewrite lookup_app_l, Ev0 by lia. f_equal.
    rewrite predict_slot_padded in Hv; [congruence | lia |].
    destruct Hd as [_ HF]. eapply Forall_impl; [exact HF |].
    intros f Hf. simpl in Hf. lia.
  - rewrite lookup_app_r by lia. destruct (decide (y < N + k)) as [Hyk | Hyk].
    + destruct (H1 y Hyk) as (v & -> & Hv).
      rewrite lookup_replicate_2 by lia. f_equal.
      apply frames_lookup in Hd as (f0 & f1 & f2 & -> & L0 & L1 & L2).
      unfold predict_slot, vec_at in Hv.
      rewrite lookup_app_r in Hv by lia.
      rewrite lookup_replicate_2 in Hv by lia. simpl in Hv.
      rewrite lookup_app_r in Hv by lia.
      rewrite lookup_replicate_2 in Hv by lia. by injection Hv as <-.
    + rewrite !lookup_ge_None_2; [done | rewrite length_replicate; lia | lia].
Qed.

Lemma predict_padded_witness :
  ∃ p0 p,
    predict 2 [[0; 10]; [0; 10]; [1; 11]]%Z [2; 2]%Z = Ok p0 ∧
    predict (2 + 2)
      ((λ f, f ++ replicate 2 BLIND_VALUE) <$> [[0; 10]; [0; 10]; [1; 11]]%Z)
      ([2; 2]%Z ++ replicate 2 1%Z) = Ok p ∧
    p = p0 ++ replicate 2 BLIND_VALUE.
Proof.
  apply (predict_padded [[0; 10]; [0; 10]; [1; 11]]%Z 2 2 [2; 2]%Z).
  - by apply frames_intro.
  - reflexivity.
Defined.
